(** * The active-inference verification programs of docxology/gno

    A shallow embedding of the Go programs under [active_inference/]:
    - [comprehensive_verify.go]: probabilities, categorical distributions,
      Bayesian-network nodes with validated CPTs, the working memory;
    - the simple verification script: the same [Probability], [Categorical]
      and [Node] with its validated [SetCPT];
    - [verify_examples.go]: the unvalidated [SetCPT] and the demonstration
      [VariableElimination.Query];
    - the comprehensive test runner: [main], [runModuleTests],
      [runSequentialTests] and [runParallelTests].

    Go's [float64] is Rocq's primitive binary64 [float] (same IEEE 754
    operations and comparisons, NaN included); Go's [int] is [Z] (only
    lengths and indices occur, so no wrap-around is reachable); a Go
    [map[string]T] is a [gmap string T]; a slice is a [list]; pointer
    receivers become explicit state passing.

    [NewNode] and [SetCPT] keep the slices they are given without copying
    them. Within one call that makes no difference, and a slice is the
    [list] of its elements; across calls the node and its caller share the
    backing arrays, and [SharedNode] models the node over a memory of
    array elements together with the caller that holds the same slices. *)

From Stdlib Require Import ZArith List Bool Lia Floats Ascii.
From Stdlib Require Uint63.
From stdpp Require Import base gmap strings list fin_maps.
Import ListNotations.

Set Warnings "-inexact-float".
Local Open Scope string_scope.
Local Open Scope Z_scope.
Local Open Scope list_scope.

(** ** Shared data model *)

(** [type Probability float64], declared in each of the three programs. *)
Definition Probability : Type := float.

(** Go's [error] interface as the programs use it: [nil], or the value of
    [fmt.Errorf] with its message. *)
Inductive error : Type :=
| nil_error
| Errorf (msg : string).

(** [type Node struct { Name string; States []string; CPT map[string][]Probability }],
    declared with the same fields in the three programs. *)
Record Node : Type := mkNode {
  Name : string;
  States : list string;
  CPT : gmap string (list Probability)
}.

(** [NewNode], the same in the three programs: an empty CPT map. *)
Definition NewNode (name : string) (states : list string) : Node :=
  {| Name := name; States := states; CPT := ∅ |}.

(** The assignment [n.CPT[parentStates] = probabilities]. *)
Definition store_CPT (n : Node) (parentStates : string)
  (probabilities : list Probability) : Node :=
  {| Name := Name n; States := States n;
     CPT := <[parentStates := probabilities]> (CPT n) |}.

(** The slice expression [s[low:]]: Go panics (no result) unless
    [0 <= low <= len(s)]. *)
Definition slice_from {A : Type} (s : list A) (low : Z) : option (list A) :=
  if (0 <=? low) && (low <=? Z.of_nat (length s))
  then Some (drop (Z.to_nat low) s)
  else None.

(** [make([]T, n)]: Go panics (no result) on a negative length; otherwise
    the slice holds [n] zero values. *)
Definition make_slice {A : Type} (n : Z) (zero : A) : option (list A) :=
  if n <? 0 then None else Some (replicate (Z.to_nat n) zero).

(** The built-in [copy(dst, src)]: the first [min(len(dst), len(src))]
    elements of [dst] become those of [src]. *)
Definition copy_slice {A : Type} (dst src : list A) : list A :=
  take (length dst) src ++ drop (length src) dst.

(** The conversion [float64(n)] of an [int] (64 bits): the nearest
    binary64 value. *)
Definition float64_of_int (n : Z) : float :=
  if 0 <=? n then of_uint63 (Uint63.of_Z n)
  else if n =? - 2 ^ 63 then (- 0x1p+63)%float
  else (- of_uint63 (Uint63.of_Z (- n)))%float.

(** ** comprehensive_verify.go *)

Module ComprehensiveVerify.

(** [func (p Probability) Validate() error]: the test is [p < 0 || p > 1]. *)
Definition Validate (p : Probability) : error :=
  if (p <? 0)%float || (1 <? p)%float
  then Errorf "probability must be between 0 and 1"
  else nil_error.

Record Categorical : Type := mkCategorical { Probs : list Probability }.

Definition NewCategorical (probs : list Probability) : Categorical :=
  {| Probs := probs |}.

Definition Sample (c : Categorical) : Z := 0.

(** [Prob]: the entry at [outcome] when [0 <= outcome < len(c.Probs)], else 0. *)
Definition Prob (c : Categorical) (outcome : Z) : Probability :=
  if (0 <=? outcome) && (outcome <? Z.of_nat (length (Probs c)))
  then match Probs c !! Z.to_nat outcome with
       | Some p => p
       | None => 0%float
       end
  else 0%float.

Section WithLog.

(** [math.Log] of Go's standard library: the natural logarithm on
    [float64]; it is not part of the repository and stays a parameter. *)
Variable math_Log : float -> float.

Definition LogProb (c : Categorical) (outcome : Z) : Probability :=
  let p := Prob c outcome in
  if (p =? 0)%float then (-1e9)%float else math_Log p.

(** One iteration of the loop of [Entropy]: [if p > 0 { h -= p * log p }],
    the product and the subtraction each rounded to [float64]. *)
Definition Entropy_step (h p : Probability) : Probability :=
  if (0 <? p)%float then (h - p * math_Log p)%float else h.

Definition Entropy (c : Categorical) : Probability :=
  fold_left Entropy_step (Probs c) 0%float.

End WithLog.

(** [AddParent] has an empty body. *)
Definition AddParent (n parent : Node) : Node := n.

(** The loop of [SetCPT]: every entry is validated before it is added to
    [sum]; the first invalid entry ends the call with its error. *)
Fixpoint SetCPT_loop (probabilities : list Probability) (sum : Probability)
  : error + Probability :=
  match probabilities with
  | [] => inr sum
  | p :: rest =>
      match Validate p with
      | Errorf msg => inl (Errorf msg)
      | nil_error => SetCPT_loop rest (sum + p)%float
      end
  end.

(** [func (n *Node) SetCPT(parentStates string, probabilities []Probability) error]:
    the node after the call and the returned error. *)
Definition SetCPT (n : Node) (parentStates : string)
  (probabilities : list Probability) : Node * error :=
  if negb (length probabilities =? length (States n))%nat
  then (n, Errorf "probabilities length must match number of states")
  else
    match SetCPT_loop probabilities 0%float with
    | inl e => (n, e)
    | inr sum =>
        if (1e-6 <? abs (sum - 1))%float
        then (n, Errorf "probabilities must sum to 1")
        else (store_CPT n parentStates probabilities, nil_error)
    end.

(** [type WorkingMemory struct { Capacity int; Contents [][]Probability }]. *)
Record WorkingMemory : Type := mkWorkingMemory {
  Capacity : Z;
  Contents : list (list Probability)
}.

(** [NewWorkingMemory]: the given capacity (any [int]) and an empty slice. *)
Definition NewWorkingMemory (capacity : Z) : WorkingMemory :=
  {| Capacity := capacity; Contents := [] |}.

(** [AddItem]: when [len(wm.Contents) >= wm.Capacity] the slice becomes
    [wm.Contents[1:]] (a run-time panic when that is out of range: no
    result), then the item is appended and [nil] is returned. *)
Definition AddItem (wm : WorkingMemory) (item : list Probability)
  : option (WorkingMemory * error) :=
  kept ← (if Z.of_nat (length (Contents wm)) >=? Capacity wm
          then slice_from (Contents wm) 1
          else Some (Contents wm));
  Some ({| Capacity := Capacity wm; Contents := kept ++ [item] |}, nil_error).

Definition GetContents (wm : WorkingMemory) : list (list Probability) :=
  Contents wm.

(** A sequence of [AddItem] calls on the same memory, oldest call first:
    the memory after the last call and the errors returned, or no result
    when a call panics. *)
Fixpoint AddItems (wm : WorkingMemory) (items : list (list Probability))
  : option (WorkingMemory * list error) :=
  match items with
  | [] => Some (wm, [])
  | item :: rest =>
      '(wm1, e) ← AddItem wm item;
      '(wm2, es) ← AddItems wm1 rest;
      Some (wm2, e :: es)
  end.

(** The loop of [GetProbability]: the first state equal to [state] selects
    the entry [probabilities[i]], a run-time panic (no result) when [i] is
    out of range; no such state gives 0. *)
Fixpoint GetProbability_loop (i : nat) (states : list string) (state : string)
  (probabilities : list Probability) : option Probability :=
  match states with
  | [] => Some 0%float
  | s :: rest =>
      if bool_decide (s = state)
      then probabilities !! i
      else GetProbability_loop (S i) rest state probabilities
  end.

(** [func (n *Node) GetProbability(state string, parentStates string)
    Probability]. *)
Definition GetProbability (n : Node) (state parentStates : string)
  : option Probability :=
  match CPT n !! parentStates with
  | None => Some 0%float
  | Some probabilities => GetProbability_loop 0 (States n) state probabilities
  end.

(** [type ActiveInferenceAgent struct { CognitiveModel interface{};
    CurrentBeliefs []Probability }]; the program never assigns
    [CognitiveModel], which stays the nil interface. *)
Record ActiveInferenceAgent : Type := mkActiveInferenceAgent {
  CognitiveModel : option unit;
  CurrentBeliefs : list Probability
}.

Definition NewActiveInferenceAgent : ActiveInferenceAgent :=
  {| CognitiveModel := None; CurrentBeliefs := replicate 4 0%float |}.

(** [Perceive]: a length test, then [copy(aia.CurrentBeliefs, observation)]. *)
Definition Perceive (aia : ActiveInferenceAgent) (observation : list Probability)
  : ActiveInferenceAgent * error :=
  if negb (length observation =? length (CurrentBeliefs aia))%nat
  then (aia, Errorf "observation length mismatch")
  else ({| CognitiveModel := CognitiveModel aia;
           CurrentBeliefs := copy_slice (CurrentBeliefs aia) observation |},
        nil_error).

(** A sequence of [Perceive] calls on the same agent, oldest first. *)
Fixpoint Perceive_all (aia : ActiveInferenceAgent)
  (observations : list (list Probability)) : ActiveInferenceAgent * list error :=
  match observations with
  | [] => (aia, [])
  | observation :: rest =>
      let '(aia1, e) := Perceive aia observation in
      let '(aia2, es) := Perceive_all aia1 rest in
      (aia2, e :: es)
  end.

(** *** The generative model ("From free_energy_principle.gno") *)

Module FreeEnergy.

Record ModelLevel : Type := mkModelLevel {
  States : list Probability;
  Priors : list Probability;
  Posteriors : list Probability;
  LikelihoodMatrix : list (list Probability)
}.

(** [Levels []*ModelLevel]: a nil pointer is [None]. *)
Record GenerativeModel : Type := mkGenerativeModel {
  Levels : list (option ModelLevel);
  Precisions : list Probability;
  LearningRate : Probability
}.

(** [for j := range level.Priors { level.Priors[j] = uniformProb;
    level.Posteriors[j] = uniformProb }] over the indices [js]. *)
Fixpoint fill_priors (js : list nat) (uniformProb : Probability)
  (priors posteriors : list Probability)
  : list Probability * list Probability :=
  match js with
  | [] => (priors, posteriors)
  | j :: rest =>
      fill_priors rest uniformProb
        (<[j := uniformProb]> priors) (<[j := uniformProb]> posteriors)
  end.

(** The entry written at row [j], column [k]. *)
Definition likelihood_entry (statesPerLevel : Z) (j k : nat) : Probability :=
  if bool_decide (j = k) then 0.8%float
  else (0.2 / float64_of_int (statesPerLevel - 1))%float.

(** [for k := range level.LikelihoodMatrix[j] {...}] over the indices [ks]. *)
Fixpoint fill_row (ks : list nat) (statesPerLevel : Z) (j : nat)
  (row : list Probability) : list Probability :=
  match ks with
  | [] => row
  | k :: rest =>
      fill_row rest statesPerLevel j
        (<[k := likelihood_entry statesPerLevel j k]> row)
  end.

(** [for j := range level.LikelihoodMatrix {...}] over the indices [js]:
    each row is made, stored, then filled. *)
Fixpoint fill_matrix (js : list nat) (statesPerLevel : Z)
  (matrix : list (list Probability)) : option (list (list Probability)) :=
  match js with
  | [] => Some matrix
  | j :: rest =>
      row ← make_slice statesPerLevel 0%float;
      fill_matrix rest statesPerLevel
        (<[j := fill_row (seq 0 (length row)) statesPerLevel j row]> matrix)
  end.

(** The body of the loop over the levels, for level [i]. *)
Definition new_level (i : nat) (numLevels statesPerLevel : Z)
  : option ModelLevel :=
  states ← make_slice statesPerLevel 0%float;
  priors ← make_slice statesPerLevel 0%float;
  posteriors ← make_slice statesPerLevel 0%float;
  let uniformProb := (1 / float64_of_int statesPerLevel)%float in
  let '(priors, posteriors) :=
    fill_priors (seq 0 (length priors)) uniformProb priors posteriors in
  matrix ← (if Z.of_nat i <? numLevels - 1
            then
              matrix ← make_slice statesPerLevel [];
              fill_matrix (seq 0 (length matrix)) statesPerLevel matrix
            else Some []);
  Some {| States := states; Priors := priors; Posteriors := posteriors;
          LikelihoodMatrix := matrix |}.

(** [for i := range levels {...; levels[i] = level; precisions[i] = 1.0}]
    over the indices [is]. *)
Fixpoint fill_levels (indices : list nat) (numLevels statesPerLevel : Z)
  (levels : list (option ModelLevel)) (precisions : list Probability)
  : option (list (option ModelLevel) * list Probability) :=
  match indices with
  | [] => Some (levels, precisions)
  | i :: rest =>
      level ← new_level i numLevels statesPerLevel;
      fill_levels rest numLevels statesPerLevel
        (<[i := Some level]> levels) (<[i := 1%float]> precisions)
  end.

(** [func NewGenerativeModel(numLevels, statesPerLevel int) *GenerativeModel]:
    no result when a [make] panics. *)
Definition NewGenerativeModel (numLevels statesPerLevel : Z)
  : option GenerativeModel :=
  levels ← make_slice numLevels None;
  precisions ← make_slice numLevels 0%float;
  '(levels, precisions) ←
    fill_levels (seq 0 (length levels)) numLevels statesPerLevel
      levels precisions;
  Some {| Levels := levels; Precisions := precisions;
          LearningRate := 0.01%float |}.

End FreeEnergy.

End ComprehensiveVerify.

(** ** comprehensive_verify.go: the node and the slices of its caller

    [NewNode] stores the slice [states] and [SetCPT] stores the slice
    [probabilities] as they are passed ([States: states],
    [n.CPT[parentStates] = probabilities]): no element is copied, so an
    assignment of the caller to an element of such a slice is seen by the
    node. Here the node holds slice values, and the elements live in a
    memory shared with the caller. *)

Module SharedNode.

(** A slice value: the address of its first element and its length. The
    capacity is left out: [NewNode], [SetCPT] and [GetProbability] neither
    append to a slice nor reslice it. Slices that overlap are views of the
    same array. *)
Record slice : Type := mkSlice { ptr : nat; len : nat }.

(** The elements of the [[]Probability] and of the [[]string] arrays, by
    address. *)
Record memory : Type := mkMemory {
  probability_at : nat → Probability;
  string_at : nat → string
}.

(** The elements [s[0]], ..., [s[len(s)-1]]. *)
Definition elements {A : Type} (element_at : nat → A) (s : slice) : list A :=
  map (fun i => element_at (ptr s + i)%nat) (seq 0 (len s)).

(** The assignment [s[i] = v]: a run-time panic (no result) unless
    [0 <= i < len(s)]. *)
Definition assign {A : Type} (element_at : nat → A) (s : slice) (i : Z) (v : A)
  : option (nat → A) :=
  if (0 <=? i) && (i <? Z.of_nat (len s))
  then Some (fun a => if (a =? ptr s + Z.to_nat i)%nat then v
                      else element_at a)
  else None.

(** [type Node struct { Name string; States []string;
    CPT map[string][]Probability }]. *)
Record Node : Type := mkNode {
  Name : string;
  States : slice;
  CPT : gmap string slice
}.

Definition NewNode (name : string) (states : slice) : Node :=
  {| Name := name; States := states; CPT := ∅ |}.

(** [SetCPT]: the length test, the loop over the elements, the test of the
    sum, then the slice itself is stored. *)
Definition SetCPT (m : memory) (n : Node) (parentStates : string)
  (probabilities : slice) : Node * error :=
  if negb (len probabilities =? len (States n))%nat
  then (n, Errorf "probabilities length must match number of states")
  else
    match ComprehensiveVerify.SetCPT_loop
            (elements (probability_at m) probabilities) 0%float with
    | inl e => (n, e)
    | inr sum =>
        if (1e-6 <? abs (sum - 1))%float
        then (n, Errorf "probabilities must sum to 1")
        else ({| Name := Name n; States := States n;
                 CPT := <[parentStates := probabilities]> (CPT n) |},
              nil_error)
    end.

(** [GetProbability]: the elements are read when the call is made. *)
Definition GetProbability (m : memory) (n : Node) (state parentStates : string)
  : option Probability :=
  match CPT n !! parentStates with
  | None => Some 0%float
  | Some probabilities =>
      ComprehensiveVerify.GetProbability_loop 0
        (elements (string_at m) (States n)) state
        (elements (probability_at m) probabilities)
  end.

(** What the caller of a node does next: a call of [SetCPT], or an
    assignment to an element of a slice it holds (an [append] within the
    capacity of a slice is such an assignment, through the longer slice). *)
Inductive statement : Type :=
| call_SetCPT (parentStates : string) (probabilities : slice)
| assign_probability (s : slice) (i : Z) (v : Probability)
| assign_state (s : slice) (i : Z) (v : string).

(** One statement of the caller: the memory and the node after it and the
    error returned by a call; no result when an assignment panics. *)
Definition execute (m : memory) (n : Node) (st : statement)
  : option (memory * Node * list error) :=
  match st with
  | call_SetCPT parentStates probabilities =>
      let '(n1, e) := SetCPT m n parentStates probabilities in
      Some (m, n1, [e])
  | assign_probability s i v =>
      written ← assign (probability_at m) s i v;
      Some ({| probability_at := written; string_at := string_at m |}, n, [])
  | assign_state s i v =>
      written ← assign (string_at m) s i v;
      Some ({| probability_at := probability_at m; string_at := written |},
            n, [])
  end.

(** A sequence of statements of the caller, first statement first. *)
Fixpoint caller (m : memory) (n : Node) (program : list statement)
  : option (memory * Node * list error) :=
  match program with
  | [] => Some (m, n, [])
  | st :: rest =>
      '(m1, n1, es1) ← execute m n st;
      '(m2, n2, es2) ← caller m1 n1 rest;
      Some (m2, n2, es1 ++ es2)
  end.

End SharedNode.

(** ** The simple verification script *)

Module SimpleVerification.

Definition Validate (p : Probability) : error :=
  if (p <? 0)%float || (1 <? p)%float
  then Errorf "probability must be between 0 and 1"
  else nil_error.

Record Categorical : Type := mkCategorical { Probs : list Probability }.

Definition NewCategorical (probs : list Probability) : Categorical :=
  {| Probs := probs |}.

Definition Sample (c : Categorical) : Z := 0.

Definition Prob (c : Categorical) (outcome : Z) : Probability :=
  if (0 <=? outcome) && (outcome <? Z.of_nat (length (Probs c)))
  then match Probs c !! Z.to_nat outcome with
       | Some p => p
       | None => 0%float
       end
  else 0%float.

(** The body of [SetCPT], statement by statement: the length test, the
    validating and summing loop, the test on the sum, the assignment. *)
Fixpoint validate_and_sum (sum : Probability) (probabilities : list Probability)
  : error + Probability :=
  match probabilities with
  | [] => inr sum
  | p :: rest =>
      match Validate p with
      | nil_error => validate_and_sum (sum + p)%float rest
      | Errorf msg => inl (Errorf msg)
      end
  end.

Definition SetCPT (n : Node) (parentStates : string)
  (probabilities : list Probability) : Node * error :=
  if bool_decide (length probabilities ≠ length (States n))
  then (n, Errorf "probabilities length must match number of states")
  else
    match validate_and_sum 0%float probabilities with
    | inl e => (n, e)
    | inr sum =>
        if (1e-6 <? abs (sum - 1))%float
        then (n, Errorf "probabilities must sum to 1")
        else (store_CPT n parentStates probabilities, nil_error)
    end.

End SimpleVerification.

(** ** verify_examples.go *)

Module VerifyExamples.

(** [AddParent] has an empty body. *)
Definition AddParent (n parent : Node) : Node := n.

(** [SetCPT] here has two statements: the assignment and [return nil]. *)
Definition SetCPT (n : Node) (parentStates : string)
  (probabilities : list Probability) : Node * error :=
  (store_CPT n parentStates probabilities, nil_error).

(** [type BayesianNetwork struct { Nodes []*Node }]; the nodes are kept by
    value here, [Query] never reads them. *)
Record BayesianNetwork : Type := mkBayesianNetwork { Nodes : list Node }.

Definition NewBayesianNetwork : BayesianNetwork := {| Nodes := [] |}.

Definition AddNode (bn : BayesianNetwork) (node : Node) : BayesianNetwork :=
  {| Nodes := Nodes bn ++ [node] |}.

Record VariableElimination : Type :=
  mkVariableElimination { Network : BayesianNetwork }.

Definition NewVariableElimination (network : BayesianNetwork)
  : VariableElimination := {| Network := network |}.

(** [v, ok := evidence[key]; ok && v == value]. *)
Definition evidence_is (evidence : gmap string string) (key value : string)
  : bool :=
  match evidence !! key with
  | Some v => bool_decide (v = value)
  | None => false
  end.

(** The two assignments [result["yes"] = yes; result["no"] = no]. *)
Definition set_yes_no (yes no : Probability) (result : gmap string Probability)
  : gmap string Probability :=
  <["no" := no]> (<["yes" := yes]> result).

(** The body of the loop [for queryVar := range query]. *)
Definition Query_body (evidence : gmap string string) (queryVar : string)
  (result : gmap string Probability) : gmap string Probability :=
  if bool_decide (queryVar = "Flu") then
    if evidence_is evidence "Fever" "yes" then
      if evidence_is evidence "Cough" "yes"
      then set_yes_no 0.32%float 0.68%float result
      else set_yes_no 0.15%float 0.85%float result
    else set_yes_no 0.05%float 0.95%float result
  else result.

(** The loop of [Query] run over the keys in the order [keys]: Go leaves
    the iteration order of [range] over a map unspecified. *)
Definition Query_range (evidence : gmap string string) (keys : list string)
  : gmap string Probability :=
  fold_left (fun result queryVar => Query_body evidence queryVar result) keys ∅.

(** [func (ve *VariableElimination) Query(query, evidence map[string]string)
    map[string]Probability], with the keys visited in the order of
    [map_to_list]. *)
Definition Query (ve : VariableElimination) (query evidence : gmap string string)
  : gmap string Probability :=
  Query_range evidence (map_to_list query).*1.

End VerifyExamples.

(** ** The comprehensive test runner *)

Module TestRunner.

(** [type TestResult struct { Module string; Passed bool; Output string;
    Duration time.Duration }]; [Module] is a keyword here, and a
    [time.Duration] is an [int64] count of nanoseconds. *)
Record TestResult : Type := mkTestResult {
  Module_ : string;
  Passed : bool;
  Output : string;
  Duration : Z
}.

(** The zero value of [TestResult], which [make] fills a slice with. *)
Definition zero_TestResult : TestResult :=
  {| Module_ := ""; Passed := false; Output := ""; Duration := 0 |}.

(** What running a command to completion yields: the bytes and the error
    of [cmd.CombinedOutput()], and the time [time.Since(startTime)] reads. *)
Record CommandRun : Type := mkCommandRun {
  combined_output : string;
  err_is_nil : bool;
  elapsed : Z
}.

(** [int64] addition, as [totalDuration += result.Duration] computes it. *)
Definition add_int64 (a b : Z) : Z :=
  (a + b + 2 ^ 63) mod 2 ^ 64 - 2 ^ 63.

(** The lines the runner prints, each with the values it formats. *)
Inductive line : Type :=
| Banner
| RunningTestsFor (module : string)
| PassedLine (duration : Z)
| FailedLine (duration : Z)
| Dashes
| SummaryHeader
| TotalModules (n : Z)
| PassedCount (n : Z)
| FailedCount (n : Z)
| SuccessRate (passed total : Z)
| FailedDetailsHeader
| ModuleFailed (module : string)
| OutputOf (output : string)
| AllTestsPassed
| FullyFunctional
| ProductionReady
| FullCoverage
| ReadyForDeployment
| TotalTime (duration : Z)
| ModulesFailed (n : Z).

Section WithCommands.

(** The outside world: the outcome of the command run for the module at
    position [k] of the list, given its argument vector. *)
Variable world : nat → list string → CommandRun.

(** [exec.Command("gno", "test", "../methods/"+module+"/")]. *)
Definition test_command (module : string) : list string :=
  ["gno"; "test"; ("../methods/" ++ module ++ "/")%string].

(** [runModuleTests], called for the module at position [k]. *)
Definition runModuleTests (k : nat) (module : string) : TestResult :=
  let run := world k (test_command module) in
  {| Module_ := module;
     Passed := err_is_nil run;
     Output := combined_output run;
     Duration := elapsed run |}.

(** The loop of [runSequentialTests] from position [k] on. *)
Fixpoint runSequentialTests_loop (k : nat) (modules : list string)
  (results : list TestResult) : list TestResult :=
  match modules with
  | [] => results
  | module :: rest =>
      let result := runModuleTests k module in
      runSequentialTests_loop (S k) rest (results ++ [result])
  end.

Definition runSequentialTests (modules : list string) : list TestResult :=
  runSequentialTests_loop 0 modules [].

(** *** [main] *)

(** The state of [main]: the lines printed so far and its variables. *)
Record main_state : Type := mkMainState {
  printed : list line;
  results : list TestResult;
  passedTests : Z
}.

Definition print (l : line) (st : main_state) : main_state :=
  {| printed := printed st ++ [l];
     results := results st;
     passedTests := passedTests st |}.

(** The first loop of [main]: run each module, record and report it. *)
Fixpoint main_run_loop (k : nat) (modules : list string) (st : main_state)
  : main_state :=
  match modules with
  | [] => st
  | module :: rest =>
      let st := print (RunningTestsFor module) st in
      let result := runModuleTests k module in
      let st := {| printed := printed st;
                   results := results st ++ [result];
                   passedTests := passedTests st |} in
      let st :=
        if Passed result
        then print (PassedLine (Duration result))
               {| printed := printed st;
                  results := results st;
                  passedTests := passedTests st + 1 |}
        else print (FailedLine (Duration result)) st in
      main_run_loop (S k) rest (print Dashes st)
  end.

(** The loop that prints the details of the failed modules. *)
Fixpoint main_failed_details (rs : list TestResult) (failedCount : Z)
  (out : list line) : list line :=
  match rs with
  | [] => out
  | result :: rest =>
      if negb (Passed result)
      then
        let out := if failedCount =? 0 then out ++ [FailedDetailsHeader] else out in
        main_failed_details rest (failedCount + 1)
          (out ++ [ModuleFailed (Module_ result); OutputOf (Output result)])
      else main_failed_details rest failedCount out
  end.

(** [main] over a list of modules: the lines printed and the exit status
    of the process (1 for [os.Exit(1)], 0 when [main] returns). *)
Definition main_on (modules : list string) : list line * Z :=
  let st := main_run_loop 0 modules
              {| printed := [Banner]; results := []; passedTests := 0 |} in
  let totalTests := Z.of_nat (length modules) in
  let out := printed st ++
               [SummaryHeader; TotalModules totalTests;
                PassedCount (passedTests st);
                FailedCount (totalTests - passedTests st);
                SuccessRate (passedTests st) totalTests] in
  let out := main_failed_details (results st) 0 out in
  if passedTests st =? totalTests
  then
    let totalDuration :=
      fold_left (fun total result => add_int64 total (Duration result))
        (results st) 0 in
    (out ++ [AllTestsPassed; FullyFunctional; ProductionReady; FullCoverage;
             ReadyForDeployment; TotalTime totalDuration], 0)
  else (out ++ [ModulesFailed (totalTests - passedTests st)], 1).

(** The list [modules] of [main]. *)
Definition main_modules : list string :=
  ["active_inference_core"; "advanced_probability"; "bayesian_inference";
   "cognitive_modeling"; "free_energy_principle"; "reinforcement_learning";
   "smart_contracts"; "visualization"; "probability"].

Definition main : list line * Z := main_on main_modules.

(** *** [runParallelTests]

    The function starts one goroutine per module, each sending its
    [runModuleTests] result on the channel [resultsChan] (buffered,
    capacity [len(modules)]), then receives [len(modules)] results into
    the slice [results]. The scheduler interleaves the goroutines with the
    function's own loops: an execution is a sequence of steps. *)

Record par_state : Type := mkParState {
  (** iterations of the starting loop already done *)
  started : nat;
  (** goroutines started that have not sent yet: position and [mod] *)
  goroutines : list (nat * string);
  (** the content of the channel, oldest first *)
  resultsChan : list TestResult;
  (** the slice [results] *)
  par_results : list TestResult;
  (** the index [i] of the collecting loop *)
  received : nat
}.

(** [results := make([]TestResult, len(modules))], an empty channel, no
    goroutine yet. *)
Definition par_init (modules : list string) : par_state :=
  {| started := 0;
     goroutines := [];
     resultsChan := [];
     par_results := replicate (length modules) zero_TestResult;
     received := 0 |}.

Inductive par_step (modules : list string) : par_state → par_state → Prop :=
(** [go func(mod string) {...}(module)]: one iteration of the first loop *)
| step_go (s : par_state) (module : string) :
    modules !! started s = Some module →
    par_step modules s
      {| started := S (started s);
         goroutines := goroutines s ++ [(started s, module)];
         resultsChan := resultsChan s;
         par_results := par_results s;
         received := received s |}
(** [resultsChan <- runModuleTests(mod)] in some goroutine: the send needs
    room in the buffer *)
| step_send (s : par_state) (before after : list (nat * string))
    (k : nat) (mod_ : string) :
    goroutines s = before ++ (k, mod_) :: after →
    (length (resultsChan s) < length modules)%nat →
    par_step modules s
      {| started := started s;
         goroutines := before ++ after;
         resultsChan := resultsChan s ++ [runModuleTests k mod_];
         par_results := par_results s;
         received := received s |}
(** [results[i] = <-resultsChan]: one iteration of the second loop, which
    starts after the first has ended and needs a value in the channel *)
| step_receive (s : par_state) (r : TestResult) (queue : list TestResult) :
    started s = length modules →
    (received s < length modules)%nat →
    resultsChan s = r :: queue →
    par_step modules s
      {| started := started s;
         goroutines := goroutines s;
         resultsChan := queue;
         par_results := <[received s := r]> (par_results s);
         received := S (received s) |}.

(** [return results]: both loops have ended. *)
Definition par_returns (modules : list string) (s : par_state)
  (rs : list TestResult) : Prop :=
  started s = length modules ∧ received s = length modules
  ∧ rs = par_results s.

(** [runParallelTests modules] can return [rs]. *)
Definition runParallelTests (modules : list string) (rs : list TestResult)
  : Prop :=
  ∃ s : par_state,
    rtc (par_step modules) (par_init modules) s ∧ par_returns modules s rs.

End WithCommands.

End TestRunner.

(** ** comprehensive_verification.go: the substring helpers *)

Module ComprehensiveVerification.

(** A Go [string] is a sequence of bytes. The slice expression [s[lo:hi]]
    panics (no result) unless [0 <= lo <= hi <= len(s)]. *)
Definition string_slice (s : list ascii) (lo hi : Z) : option (list ascii) :=
  if (0 <=? lo) && (lo <=? hi) && (hi <=? Z.of_nat (length s))
  then Some (take (Z.to_nat (hi - lo)) (drop (Z.to_nat lo) s))
  else None.

(** The loop [for i := 0; i <= len(s)-len(substr); i++] of [findSubstring]
    from index [i], with [iterations] iterations left. *)
Fixpoint findSubstring_loop (iterations : nat) (i : Z) (s substr : list ascii)
  : option Z :=
  match iterations with
  | O => Some (-1)
  | S n =>
      window ← string_slice s i (i + Z.of_nat (length substr));
      if bool_decide (window = substr) then Some i
      else findSubstring_loop n (i + 1) s substr
  end.

(** [func findSubstring(s, substr string) int]: the loop runs for
    [i = 0, ..., len(s)-len(substr)], not at all when that bound is
    negative. *)
Definition findSubstring (s substr : list ascii) : option Z :=
  findSubstring_loop
    (Z.to_nat (Z.of_nat (length s) - Z.of_nat (length substr) + 1)) 0 s substr.

(** [func contains(s, substr string) bool]:
    [len(s) >= len(substr) && findSubstring(s, substr) >= 0]. *)
Definition contains (s substr : list ascii) : option bool :=
  if Z.of_nat (length s) >=? Z.of_nat (length substr)
  then index ← findSubstring s substr; Some (index >=? 0)
  else Some false.

End ComprehensiveVerification.

(** * Vocabulary of the statements *)

(** An entry lies outside [0,1] when it compares below 0 or above 1 (the
    comparisons of [float64]; a NaN compares neither way). *)
Definition outside_unit (p : Probability) : Prop :=
  (p <? 0)%float = true ∨ (1 <? p)%float = true.

(** An entry lies in [0,1] when [0 <= p] and [p <= 1]. *)
Definition in_unit (p : Probability) : Prop :=
  (0 <=? p)%float = true ∧ (p <=? 1)%float = true.

(** The sum of the entries, added from left to right starting from 0. *)
Definition float_sum (probabilities : list Probability) : Probability :=
  fold_left PrimFloat.add probabilities 0%float.

(** The sum differs from 1 by more than 1e-6. *)
Definition sum_off_one (probabilities : list Probability) : Prop :=
  (1e-6 <? abs (float_sum probabilities - 1))%float = true.

Definition is_nil (e : error) : bool :=
  match e with nil_error => true | Errorf _ => false end.

(** Two results are the same [float64] value, the sign of a zero apart
    (Go's [==] holds between them unless both are NaN). *)
Definition same_number (x y : float) : Prop :=
  x = y ∨ ((x =? 0)%float = true ∧ (y =? 0)%float = true).

(** [x] and [y] are the same value up to the sign of a zero. *)
Definition SFsame (x y : spec_float) : Prop :=
  x = y ∨ ∃ sx sy : bool, x = S754_zero sx ∧ y = S754_zero sy.

(** The most recent [c] elements of [l], in the order of [l]. *)
Definition most_recent {A : Type} (c : nat) (l : list A) : list A :=
  drop (length l - c) l.

(** The node and list of the script's own rejection test: two states and
    the entries 0.5 and 0.3, which sum to 0.8. *)
Definition TestNode : Node := NewNode "TestNode" ["true"; "false"].

(** Two versions of [SetCPT] compute the same function when, on every
    node and every input, they accept or reject alike and leave the same
    CPT map in the node. *)
Definition same_SetCPT (f g : Node → string → list Probability → Node * error)
  : Prop :=
  ∀ (n : Node) (parentStates : string) (probabilities : list Probability),
    is_nil (f n parentStates probabilities).2
      = is_nil (g n parentStates probabilities).2
    ∧ CPT (f n parentStates probabilities).1
      = CPT (g n parentStates probabilities).1.

Section Probability_vocabulary.
Import ComprehensiveVerify.

(** The property C3 states: [Validate] accepts exactly the values of
    [0,1], and every value returned by [Prob], [LogProb] and [Entropy] lies
    in [0,1]. *)
Definition Probability_always_bounded (math_Log : float → float) : Prop :=
  (∀ p : Probability, Validate p = nil_error ↔ in_unit p)
  ∧ ∀ (c : Categorical) (outcome : Z),
      in_unit (Prob c outcome)
      ∧ in_unit (LogProb math_Log c outcome)
      ∧ in_unit (Entropy math_Log c).

(** The entries strictly greater than 0, in their order. *)
Definition positive_entries (probs : list Probability) : list Probability :=
  List.filter (fun p => (0 <? p)%float) probs.

Variable math_Log : float → float.

(** The term [p * ln p] of an entry. *)
Definition plogp (p : Probability) : Probability := (p * math_Log p)%float.

(** The negative sum of [p * ln p] over the entries strictly greater than 0. *)
Definition negative_plogp_sum (probs : list Probability) : Probability :=
  (- float_sum (map plogp (positive_entries probs)))%float.

End Probability_vocabulary.

Section Query_vocabulary.
Import VerifyExamples.

(** The three literal answers. *)
Definition posterior_fever_and_cough : gmap string Probability :=
  {["yes" := 0.32%float; "no" := 0.68%float]}.
Definition posterior_fever_only : gmap string Probability :=
  {["yes" := 0.15%float; "no" := 0.85%float]}.
Definition prior_flu : gmap string Probability :=
  {["yes" := 0.05%float; "no" := 0.95%float]}.

(** The answer the evidence selects. *)
Definition flu_answer (evidence : gmap string string)
  : gmap string Probability :=
  if evidence_is evidence "Fever" "yes" then
    if evidence_is evidence "Cough" "yes"
    then posterior_fever_and_cough
    else posterior_fever_only
  else prior_flu.

End Query_vocabulary.

Section Runner_vocabulary.
Import TestRunner.

(** The three lines [main] prints for a module. *)
Definition report (r : TestResult) : list line :=
  [RunningTestsFor (Module_ r);
   if Passed r then PassedLine (Duration r) else FailedLine (Duration r);
   Dashes].

Definition count_passed (rs : list TestResult) : Z :=
  Z.of_nat (length (List.filter Passed rs)).

(** A world in which every command succeeds after 5 nanoseconds. *)
Definition quiet_world (k : nat) (command : list string)
  : CommandRun :=
  {| combined_output := "ok";
     err_is_nil := true;
     elapsed := 5 |}.

Variable world : nat → list string → CommandRun.

(** The results of the modules from position [k] on, in order. *)
Fixpoint results_from (k : nat) (modules : list string) : list TestResult :=
  match modules with
  | [] => []
  | module :: rest => runModuleTests world k module :: results_from (S k) rest
  end.

(** Some module's command failed, or none did. *)
Definition some_command_failed (modules : list string) : Prop :=
  ∃ (k : nat) (module : string),
    modules !! k = Some module
    ∧ err_is_nil (world k (test_command module)) = false.

Definition every_command_succeeded (modules : list string) : Prop :=
  ∀ (k : nat) (module : string),
    modules !! k = Some module →
    err_is_nil (world k (test_command module)) = true.

(** The result a started goroutine will send. *)
Definition result_of (g : nat * string) : TestResult :=
  runModuleTests world g.1 g.2.

Variable modules : list string.

(** What holds in every state of an execution: the results received, those
    waiting in the channel and those still to be sent are together the
    results of the modules whose goroutine has been started. *)
Record par_invariant (s : par_state) : Prop := mkParInvariant {
  inv_started : (started s ≤ length modules)%nat;
  inv_received : (received s ≤ length modules)%nat;
  inv_length : length (par_results s) = length modules;
  inv_results :
    take (received s) (par_results s) ++ resultsChan s
      ++ map result_of (goroutines s)
    ≡ₚ take (started s) (results_from 0 modules)
}.

(** The number of steps an execution still has to take. *)
Definition steps_left (s : par_state) : nat :=
  3 * (length modules - started s) + 2 * length (goroutines s)
  + length (resultsChan s).

End Runner_vocabulary.

(** ** Vocabulary of the further properties *)

(** The position of the first element of [states] equal to [state]. *)
Fixpoint first_index (state : string) (states : list string) : option nat :=
  match states with
  | [] => None
  | s :: rest =>
      if bool_decide (s = state) then Some 0%nat
      else S <$> first_index state rest
  end.

(** What a list that passed the checks of [SetCPT] satisfies: one entry
    per state; every entry is NaN or lies in [0,1]; and some entry is NaN
    or the sum is within 1e-6 of 1. *)
Definition row_checked (states : nat) (row : list Probability) : Prop :=
  length row = states
  ∧ Forall (fun p => p = nan ∨ in_unit p) row
  ∧ (nan ∈ row ∨ (abs (float_sum row - 1) <=? 1e-6)%float = true).

Section SharedNode_vocabulary.
Import SharedNode.

(** Every row the node holds, with the elements it has in the memory [m],
    is as [SetCPT] accepts it. *)
Definition rows_checked (m : memory) (n : Node) : Prop :=
  ∀ (parentStates : string) (row : slice),
    CPT n !! parentStates = Some row →
    row_checked (len (States n)) (elements (probability_at m) row).

(** The address [a] is that of an element of [s]. *)
Definition within (s : slice) (a : nat) : bool :=
  (ptr s <=? a)%nat && (a <? ptr s + len s)%nat.

(** The statement does not assign to an element of a row the node holds. *)
Definition spares_rows (n : Node) (st : statement) : bool :=
  match st with
  | assign_probability s i v =>
      bool_decide
        (map_Forall (fun _ row => within row (ptr s + Z.to_nat i)%nat = false)
           (CPT n))
  | _ => true
  end.

(** No statement of the program assigns to an element of a row that the
    node holds when the statement is reached. *)
Fixpoint rows_left_alone (m : memory) (n : Node) (program : list statement)
  : bool :=
  match program with
  | [] => true
  | st :: rest =>
      spares_rows n st
      && match execute m n st with
         | Some (m1, n1, _) => rows_left_alone m1 n1 rest
         | None => true
         end
  end.

(** A memory that holds the given elements from address 0 on. *)
Definition memory_of (probabilities : list Probability) (strings : list string)
  : memory :=
  {| probability_at := fun a => default 0%float (probabilities !! a);
     string_at := fun a => default "" (strings !! a) |}.

End SharedNode_vocabulary.

(** [substr] occurs in [s] at byte index [i]. *)
Definition occurs_at (s substr : list ascii) (i : Z) : Prop :=
  0 ≤ i ∧ i + Z.of_nat (length substr) ≤ Z.of_nat (length s)
  ∧ take (length substr) (drop (Z.to_nat i) s) = substr.

Section Runner_output_vocabulary.
Import TestRunner.

(** The two lines [main] prints for a failed module. *)
Definition failure_lines (r : TestResult) : list line :=
  [ModuleFailed (Module_ r); OutputOf (Output r)].

Definition failed_results (rs : list TestResult) : list TestResult :=
  List.filter (fun r => negb (Passed r)) rs.

(** The failed-module section of the output: nothing when no module
    failed, else the header and the two lines of each failed module. *)
Definition failed_details (rs : list TestResult) : list line :=
  match failed_results rs with
  | [] => []
  | failed => FailedDetailsHeader :: flat_map failure_lines failed
  end.

(** The five summary lines. *)
Definition summary_lines (rs : list TestResult) : list line :=
  [SummaryHeader; TotalModules (Z.of_nat (length rs));
   PassedCount (count_passed rs);
   FailedCount (Z.of_nat (length rs) - count_passed rs);
   SuccessRate (count_passed rs) (Z.of_nat (length rs))].

(** The closing lines and the exit status. *)
Definition closing_lines (rs : list TestResult) : list line * Z :=
  if forallb Passed rs
  then ([AllTestsPassed; FullyFunctional; ProductionReady; FullCoverage;
         ReadyForDeployment;
         TotalTime (fold_left (fun total r => add_int64 total (Duration r))
                      rs 0)], 0)
  else ([ModulesFailed (Z.of_nat (length rs) - count_passed rs)], 1).

End Runner_output_vocabulary.

Section Model_vocabulary.
Import ComprehensiveVerify.

(** The row [j] of a likelihood matrix. *)
Definition likelihood_row (statesPerLevel : Z) (j : nat) : list Probability :=
  map (FreeEnergy.likelihood_entry statesPerLevel j)
    (seq 0 (Z.to_nat statesPerLevel)).

(** The level [NewGenerativeModel] builds at position [i]: zero states,
    uniform priors and posteriors, and, except for the last level, the
    square likelihood matrix. *)
Definition expected_level (i : nat) (numLevels statesPerLevel : Z)
  : FreeEnergy.ModelLevel :=
  let n := Z.to_nat statesPerLevel in
  let uniformProb := (1 / float64_of_int statesPerLevel)%float in
  {| FreeEnergy.States := replicate n 0%float;
     FreeEnergy.Priors := replicate n uniformProb;
     FreeEnergy.Posteriors := replicate n uniformProb;
     FreeEnergy.LikelihoodMatrix :=
       if Z.of_nat i <? numLevels - 1
       then map (likelihood_row statesPerLevel) (seq 0 n)
       else [] |}.

(** The last observation of the length the agent accepts, if any. *)
Definition last_accepted (observations : list (list Probability))
  : list Probability :=
  default (replicate 4 0%float)
    (last (List.filter (fun o => (length o =? 4)%nat) observations)).

End Model_vocabulary.

(** * Properties *)

(** ** CPT validation in comprehensive_verify.go *)

Section SetCPT_comprehensive.
Import ComprehensiveVerify.

Lemma Validate_nil_iff (p : Probability) :
  Validate p = nil_error ↔ ¬ outside_unit p.
Proof.
  unfold Validate, outside_unit.
  destruct (p <? 0)%float, (1 <? p)%float; simpl; split; intros H;
    try discriminate; try reflexivity; try (intros [?|?]; discriminate).
  all: exfalso; apply H; auto.
Qed.

Lemma Validate_error_iff (p : Probability) :
  Validate p = Errorf "probability must be between 0 and 1" ↔ outside_unit p.
Proof.
  unfold Validate, outside_unit.
  destruct (p <? 0)%float, (1 <? p)%float; simpl; split; intros H;
    auto; try discriminate; destruct H; discriminate.
Qed.

(** The loop stops with an error exactly when some entry is outside [0,1];
    otherwise it ends with the running sum of all entries. *)
Lemma SetCPT_loop_spec (probabilities : list Probability) (sum : Probability) :
  match SetCPT_loop probabilities sum with
  | inl e => Exists outside_unit probabilities ∧ is_nil e = false
  | inr total =>
      Forall (fun p => ¬ outside_unit p) probabilities
      ∧ total = fold_left PrimFloat.add probabilities sum
  end.
Proof.
  revert sum; induction probabilities as [|p rest IH]; intros sum; simpl.
  - split; [constructor | reflexivity].
  - destruct (Validate p) eqn:Hp.
    + apply Validate_nil_iff in Hp.
      specialize (IH (sum + p)%float).
      destruct (SetCPT_loop rest (sum + p)%float) as [e|total].
      * destruct IH as [Hex He]. split; [now apply Exists_cons_tl | exact He].
      * destruct IH as [Hall Ht]. split; [now constructor | exact Ht].
    + split; [|reflexivity].
      apply Exists_cons_hd. apply Validate_error_iff.
      unfold Validate in *.
      destruct ((p <? 0)%float || (1 <? p)%float); [reflexivity | discriminate].
Qed.

Lemma Exists_not_Forall_outside (l : list Probability) :
  Exists outside_unit l → Forall (fun p => ¬ outside_unit p) l → False.
Proof.
  induction 1 as [p l Hp | p l _ IH]; intros Hall;
    apply Forall_cons_iff in Hall as [Hh Ht]; auto.
Qed.

(** The tests of [SetCPT] as Go evaluates them: an error is returned if and
    only if the lengths differ, or some entry compares below 0 or above 1,
    or the distance of the sum from 1 compares above 1e-6; when [nil] is
    returned the node's CPT holds the list under [parentStates], and on an
    error the node is unchanged. A NaN fails none of these comparisons. *)
Lemma SetCPT_tests (n : Node) (parentStates : string)
  (probabilities : list Probability) :
  (is_nil (SetCPT n parentStates probabilities).2 = false
   ↔ length probabilities ≠ length (States n)
     ∨ Exists outside_unit probabilities
     ∨ sum_off_one probabilities)
  ∧ (SetCPT n parentStates probabilities).1 =
      (if is_nil (SetCPT n parentStates probabilities).2
       then store_CPT n parentStates probabilities
       else n)
  ∧ CPT (store_CPT n parentStates probabilities) !! parentStates
      = Some probabilities.
Proof.
  split; [|split]; [| |apply lookup_insert_eq].
  - unfold SetCPT, sum_off_one, float_sum.
    destruct (Nat.eqb_spec (length probabilities) (length (States n))) as [Hlen|Hlen];
      simpl; [|tauto].
    pose proof (SetCPT_loop_spec probabilities 0%float) as Hloop.
    destruct (SetCPT_loop probabilities 0%float) as [e|total].
    + destruct Hloop as [Hex He]. simpl. tauto.
    + destruct Hloop as [Hall ->].
      destruct (1e-6 <? abs (fold_left PrimFloat.add probabilities 0 - 1))%float
        eqn:Hsum; simpl.
      * tauto.
      * split; [discriminate|].
        intros [H|[H|H]]; [congruence | | discriminate].
        exfalso; eapply Exists_not_Forall_outside; eauto.
  - unfold SetCPT.
    destruct (negb _); [reflexivity|].
    pose proof (SetCPT_loop_spec probabilities 0%float) as Hloop.
    destruct (SetCPT_loop probabilities 0%float) as [e|total].
    + destruct Hloop as [_ He]. simpl. now rewrite He.
    + destruct (1e-6 <? abs (total - 1))%float; reflexivity.
Qed.

End SetCPT_comprehensive.

(** ** The working memory of comprehensive_verify.go *)

Section WorkingMemory_fifo.
Import ComprehensiveVerify.

Lemma most_recent_length {A : Type} (c : nat) (l : list A) :
  length (most_recent c l) = Nat.min (length l) c.
Proof. unfold most_recent. rewrite length_drop. lia. Qed.

(** Appending to a window of positive size: a full window first loses its
    oldest element. *)
Lemma most_recent_snoc {A : Type} (c : nat) (l : list A) (x : A) :
  (1 ≤ c)%nat →
  most_recent c (l ++ [x]) =
    (if (c <=? length (most_recent c l))%nat
     then drop 1 (most_recent c l)
     else most_recent c l) ++ [x].
Proof.
  intros Hc. rewrite most_recent_length. unfold most_recent.
  rewrite length_app. simpl.
  destruct (Nat.leb_spec c (Nat.min (length l) c)) as [Hfull|Hroom].
  - rewrite drop_drop, drop_app_le by lia.
    do 2 f_equal. lia.
  - replace (length l + 1 - c)%nat with 0%nat by lia.
    replace (length l - c)%nat with 0%nat by lia.
    reflexivity.
Qed.

(** A sequence of calls followed by one more call. *)
Lemma AddItems_snoc (wm : WorkingMemory) (items : list (list Probability))
  (item : list Probability) :
  AddItems wm (items ++ [item]) =
    '(wm1, es) ← AddItems wm items;
    '(wm2, e) ← AddItem wm1 item;
    Some (wm2, es ++ [e]).
Proof.
  revert wm; induction items as [|first rest IH]; intros wm; simpl.
  - destruct (AddItem wm item) as [[wm2 e]|]; reflexivity.
  - destruct (AddItem wm first) as [[wm1 e]|]; simpl; [|reflexivity].
    rewrite IH.
    destruct (AddItems wm1 rest) as [[wm2 es]|]; simpl; [|reflexivity].
    destruct (AddItem wm2 item) as [[wm3 e3]|]; reflexivity.
Qed.

(** One call on a memory of capacity at least 1 that holds a window of the
    items added so far. *)
Lemma AddItem_window (c : Z) (seen : list (list Probability))
  (item : list Probability) :
  1 ≤ c →
  AddItem {| Capacity := c; Contents := most_recent (Z.to_nat c) seen |} item =
    Some ({| Capacity := c;
             Contents := most_recent (Z.to_nat c) (seen ++ [item]) |},
          nil_error).
Proof.
  intros Hc. unfold AddItem; cbn [Capacity Contents].
  rewrite most_recent_snoc by lia.
  destruct (Z.geb_spec (Z.of_nat (length (most_recent (Z.to_nat c) seen))) c)
    as [Hfull|Hroom].
  - unfold slice_from.
    replace (0 <=? 1) with true by reflexivity.
    replace (1 <=? Z.of_nat (length (most_recent (Z.to_nat c) seen)))
      with true by (symmetry; apply Z.leb_le; lia).
    replace (Z.to_nat c <=? length (most_recent (Z.to_nat c) seen))%nat
      with true by (symmetry; apply Nat.leb_le; lia).
    reflexivity.
  - replace (Z.to_nat c <=? length (most_recent (Z.to_nat c) seen))%nat
      with false by (symmetry; apply Nat.leb_gt; lia).
    reflexivity.
Qed.

(** Any sequence of calls on a fresh memory of capacity at least 1. *)
Lemma AddItems_capacity_pos (c : Z) (items : list (list Probability)) :
  1 ≤ c →
  AddItems (NewWorkingMemory c) items =
    Some ({| Capacity := c; Contents := most_recent (Z.to_nat c) items |},
          replicate (length items) nil_error).
Proof.
  intros Hc. induction items as [|item items IH] using rev_ind.
  - reflexivity.
  - rewrite AddItems_snoc, IH. simpl.
    rewrite AddItem_window by exact Hc. simpl.
    rewrite length_app. simpl.
    rewrite replicate_add. reflexivity.
Qed.

(** C4. On a working memory created with capacity [c >= 1], every sequence
    of [AddItem] calls returns [nil] each time and leaves in [Contents]
    exactly the most recent [min(n, c)] of the [n] items added, in
    insertion order, so never more than [c]; a call on a full memory drops
    the oldest item and appends the new one. *)
Theorem AddItem_fixed_capacity_fifo (c : Z) (items : list (list Probability)) :
  1 ≤ c →
  ∃ wm : WorkingMemory,
    AddItems (NewWorkingMemory c) items
      = Some (wm, replicate (length items) nil_error)
    ∧ Capacity wm = c
    ∧ Contents wm = drop (length items - Z.to_nat c) items
    ∧ length (Contents wm) = Nat.min (length items) (Z.to_nat c)
    ∧ Z.of_nat (length (Contents wm)) ≤ c
    ∧ ∀ item : list Probability,
        AddItem wm item =
          Some ({| Capacity := c;
                   Contents :=
                     (if Z.of_nat (length (Contents wm)) =? c
                      then drop 1 (Contents wm)
                      else Contents wm) ++ [item] |},
                nil_error).
Proof.
  intros Hc.
  exists {| Capacity := c; Contents := most_recent (Z.to_nat c) items |}.
  cbn [Capacity Contents].
  split; [apply AddItems_capacity_pos; exact Hc|].
  split; [reflexivity|].
  split; [reflexivity|].
  split; [apply most_recent_length|].
  split; [rewrite most_recent_length; lia|].
  intros item. rewrite AddItem_window by exact Hc.
  rewrite most_recent_snoc by lia.
  rewrite most_recent_length.
  destruct (Z.eqb_spec (Z.of_nat (Nat.min (length items) (Z.to_nat c))) c)
    as [Hfull|Hroom].
  - replace (Z.to_nat c <=? Nat.min (length items) (Z.to_nat c))%nat
      with true by (symmetry; apply Nat.leb_le; lia).
    reflexivity.
  - replace (Z.to_nat c <=? Nat.min (length items) (Z.to_nat c))%nat
      with false by (symmetry; apply Nat.leb_gt; lia).
    reflexivity.
Qed.

Lemma AddItem_fixed_capacity_fifo_witness :
  ∃ wm : WorkingMemory,
    AddItems (NewWorkingMemory 2) [[0.5%float]; [0.3%float]; [0.7%float]]
      = Some (wm, [nil_error; nil_error; nil_error])
    ∧ Contents wm = [[0.3%float]; [0.7%float]].
Proof.
  destruct (AddItem_fixed_capacity_fifo 2 [[0.5%float]; [0.3%float]; [0.7%float]])
    as (wm & Hrun & _ & Hcontents & _); [lia|].
  exists wm. split; [exact Hrun | exact Hcontents].
Defined.

(** C9. On a working memory created with capacity 0 or less the first
    [AddItem] call takes the eviction branch and panics on [Contents[1:]]
    of the empty slice; with capacity at least 1 no call of any sequence
    of [AddItem] calls panics. *)
Theorem AddItem_total_iff_capacity_pos (c : Z) :
  (c ≤ 0 →
     ∀ item : list Probability,
       (Z.of_nat (length (Contents (NewWorkingMemory c))) >=? c) = true
       ∧ slice_from (Contents (NewWorkingMemory c)) 1 = None
       ∧ AddItem (NewWorkingMemory c) item = None)
  ∧ (1 ≤ c →
     ∀ (items : list (list Probability)) (item : list Probability),
       ∃ wm wm' : WorkingMemory,
         AddItems (NewWorkingMemory c) items
           = Some (wm, replicate (length items) nil_error)
         ∧ AddItem wm item = Some (wm', nil_error)).
Proof.
  split.
  - intros Hc item.
    assert (Hge : (Z.of_nat (length (Contents (NewWorkingMemory c))) >=? c) = true).
    { simpl. apply Z.geb_le. lia. }
    split; [exact Hge|]. split; [reflexivity|].
    unfold AddItem. change (Capacity (NewWorkingMemory c)) with c.
    rewrite Hge. reflexivity.
  - intros Hc items item.
    eexists _, _. split; [apply AddItems_capacity_pos; exact Hc|].
    apply AddItem_window; exact Hc.
Qed.

Lemma AddItem_total_iff_capacity_pos_witness :
  AddItem (NewWorkingMemory 0) [0.5%float] = None
  ∧ ∃ wm wm' : WorkingMemory,
      AddItems (NewWorkingMemory 1) [[0.1%float]; [0.2%float]]
        = Some (wm, [nil_error; nil_error])
      ∧ AddItem wm [0.3%float] = Some (wm', nil_error).
Proof.
  split.
  - destruct (AddItem_total_iff_capacity_pos 0) as [Hpanic _].
    apply (Hpanic ltac:(lia) [0.5%float]).
  - destruct (AddItem_total_iff_capacity_pos 1) as [_ Hsafe].
    apply (Hsafe ltac:(lia) [[0.1%float]; [0.2%float]] [0.3%float]).
Defined.

End WorkingMemory_fifo.

(** ** The demonstration query of verify_examples.go *)

Section Query_literals.
Import VerifyExamples.

Lemma evidence_is_true (evidence : gmap string string) (key value : string) :
  evidence_is evidence key value = true ↔ evidence !! key = Some value.
Proof.
  unfold evidence_is. destruct (evidence !! key) as [v|].
  - rewrite bool_decide_eq_true. split; congruence.
  - split; discriminate.
Qed.

Lemma evidence_is_false (evidence : gmap string string) (key value : string) :
  evidence_is evidence key value = false ↔ evidence !! key ≠ Some value.
Proof.
  rewrite <- evidence_is_true. destruct (evidence_is evidence key value);
    split; congruence.
Qed.

Lemma set_yes_no_overwrites (yes no : Probability)
  (result : gmap string Probability) :
  dom result ⊆ {["yes"; "no"]} →
  set_yes_no yes no result = {["yes" := yes; "no" := no]}.
Proof.
  intros Hdom. unfold set_yes_no. apply map_eq. intros k.
  destruct (decide (k = "no")) as [->|Hno];
    [rewrite lookup_insert_eq, lookup_insert_ne, lookup_singleton_eq by done; done|].
  rewrite lookup_insert_ne by done.
  destruct (decide (k = "yes")) as [->|Hyes];
    [rewrite !lookup_insert_eq; done|].
  rewrite !lookup_insert_ne, lookup_singleton_ne by done.
  apply not_elem_of_dom. intros Hin. apply Hdom in Hin.
  apply elem_of_union in Hin as [Hin|Hin]; apply elem_of_singleton in Hin;
    contradiction.
Qed.

(** The loop body on the key "Flu" writes the selected answer over
    whatever answer [result] already held. *)
Lemma Query_body_Flu (evidence : gmap string string)
  (result : gmap string Probability) :
  dom result ⊆ {["yes"; "no"]} →
  Query_body evidence "Flu" result = flu_answer evidence.
Proof.
  intros Hdom. unfold Query_body, flu_answer.
  rewrite bool_decide_eq_true_2 by reflexivity.
  destruct (evidence_is evidence "Fever" "yes");
    [destruct (evidence_is evidence "Cough" "yes")|];
    apply set_yes_no_overwrites; exact Hdom.
Qed.

Lemma Query_body_other (evidence : gmap string string) (queryVar : string)
  (result : gmap string Probability) :
  queryVar ≠ "Flu" → Query_body evidence queryVar result = result.
Proof.
  intros Hne. unfold Query_body. now rewrite bool_decide_eq_false_2.
Qed.

Lemma flu_answer_dom (evidence : gmap string string) :
  dom (flu_answer evidence) ⊆ {["yes"; "no"]}.
Proof.
  unfold flu_answer, posterior_fever_and_cough, posterior_fever_only, prior_flu.
  destruct (evidence_is evidence "Fever" "yes");
    [destruct (evidence_is evidence "Cough" "yes")|];
    rewrite dom_insert, dom_singleton; set_solver.
Qed.

(** The loop over any sequence of keys, from a result that is still empty
    or already holds the answer. *)
Lemma Query_loop_spec (evidence : gmap string string) (keys : list string)
  (result : gmap string Probability) :
  result = ∅ ∨ result = flu_answer evidence →
  fold_left (fun r queryVar => Query_body evidence queryVar r) keys result =
    if bool_decide ("Flu" ∈ keys) then flu_answer evidence else result.
Proof.
  revert result; induction keys as [|k keys IH]; intros result Hres;
    cbn [fold_left].
  - rewrite bool_decide_eq_false_2; [reflexivity | apply not_elem_of_nil].
  - destruct (decide (k = "Flu")) as [->|Hk].
    + rewrite Query_body_Flu
        by (destruct Hres as [->| ->]; [set_solver | apply flu_answer_dom]).
      rewrite IH by (right; reflexivity).
      rewrite (bool_decide_eq_true_2 ("Flu" ∈ "Flu" :: keys))
        by (apply elem_of_cons; left; reflexivity).
      destruct (bool_decide ("Flu" ∈ keys)); reflexivity.
    + rewrite Query_body_other by exact Hk.
      rewrite IH by exact Hres.
      apply (f_equal (fun b : bool => if b then _ else _)).
      apply bool_decide_ext. rewrite elem_of_cons.
      split; [intros H; right; exact H | intros [H|H]; [congruence | exact H]].
Qed.

Lemma Query_range_spec (evidence : gmap string string) (keys : list string) :
  Query_range evidence keys =
    if bool_decide ("Flu" ∈ keys) then flu_answer evidence else ∅.
Proof. apply Query_loop_spec. left; reflexivity. Qed.

Lemma Flu_in_keys (query : gmap string string) :
  "Flu" ∈ (map_to_list query).*1 ↔ is_Some (query !! "Flu").
Proof.
  rewrite list_elem_of_fmap. split.
  - intros [[k v] [Hk Hin]]. simpl in Hk. subst k.
    apply elem_of_map_to_list in Hin. eauto.
  - intros [v Hv]. exists ("Flu", v). split; [reflexivity|].
    now apply elem_of_map_to_list.
Qed.

(** C1. [Query] returns literal probabilities: when the query map contains
    "Flu" the result is {"yes": 0.32, "no": 0.68} if the evidence has
    Fever="yes" and Cough="yes", {"yes": 0.15, "no": 0.85} if it has
    Fever="yes" but not Cough="yes", and the prior {"yes": 0.05, "no": 0.95}
    otherwise; when the query map does not contain "Flu" the result is the
    empty map. The network held by the receiver never influences the
    result, and neither does the order in which [range] visits the keys. *)
Theorem Query_returns_literals (ve : VariableElimination)
  (query evidence : gmap string string) :
  (is_Some (query !! "Flu") →
     (evidence !! "Fever" = Some "yes" → evidence !! "Cough" = Some "yes" →
        Query ve query evidence = {["yes" := 0.32%float; "no" := 0.68%float]})
     ∧ (evidence !! "Fever" = Some "yes" → evidence !! "Cough" ≠ Some "yes" →
        Query ve query evidence = {["yes" := 0.15%float; "no" := 0.85%float]})
     ∧ (evidence !! "Fever" ≠ Some "yes" →
        Query ve query evidence = {["yes" := 0.05%float; "no" := 0.95%float]}))
  ∧ (query !! "Flu" = None → Query ve query evidence = ∅)
  ∧ (∀ ve' : VariableElimination,
       Query ve' query evidence = Query ve query evidence)
  ∧ (∀ keys : list string,
       keys ≡ₚ (map_to_list query).*1 →
       Query_range evidence keys = Query ve query evidence).
Proof.
  assert (Hq : Query ve query evidence =
                 if bool_decide (is_Some (query !! "Flu"))
                 then flu_answer evidence else ∅).
  { unfold Query. rewrite Query_range_spec.
    apply (f_equal (fun b : bool => if b then _ else _)).
    apply bool_decide_ext, Flu_in_keys. }
  split; [|split; [|split]].
  - intros Hflu. rewrite Hq, bool_decide_eq_true_2 by exact Hflu.
    unfold flu_answer. split; [|split].
    + intros Hfever Hcough.
      apply evidence_is_true in Hfever, Hcough. now rewrite Hfever, Hcough.
    + intros Hfever Hcough.
      apply evidence_is_true in Hfever. apply evidence_is_false in Hcough.
      now rewrite Hfever, Hcough.
    + intros Hfever. apply evidence_is_false in Hfever. now rewrite Hfever.
  - intros Hflu. rewrite Hq, bool_decide_eq_false_2; [reflexivity|].
    rewrite Hflu. apply is_Some_None.
  - intros ve'. reflexivity.
  - intros keys Hperm. unfold Query. rewrite !Query_range_spec.
    apply (f_equal (fun b : bool => if b then _ else _)).
    apply bool_decide_ext. now rewrite Hperm.
Qed.

Lemma Query_returns_literals_witness :
  Query (NewVariableElimination NewBayesianNetwork)
    {["Flu" := ""]} {["Fever" := "yes"; "Cough" := "yes"]}
    = {["yes" := 0.32%float; "no" := 0.68%float]}
  ∧ Query (NewVariableElimination NewBayesianNetwork)
      {["Burglary" := ""]} {["JohnCalls" := "true"; "MaryCalls" := "true"]}
      = ∅.
Proof.
  split.
  - apply (Query_returns_literals (NewVariableElimination NewBayesianNetwork)
             {["Flu" := ""]} {["Fever" := "yes"; "Cough" := "yes"]}).
    + exists "". reflexivity.
    + reflexivity.
    + reflexivity.
  - apply (Query_returns_literals (NewVariableElimination NewBayesianNetwork)
             {["Burglary" := ""]}
             {["JohnCalls" := "true"; "MaryCalls" := "true"]}).
    reflexivity.
Defined.

End Query_literals.

(** ** The three copies of [SetCPT] *)

Section SetCPT_copies.

Lemma Validate_copies (p : Probability) :
  SimpleVerification.Validate p = ComprehensiveVerify.Validate p.
Proof. reflexivity. Qed.

Lemma validate_and_sum_copies (probabilities : list Probability)
  (sum : Probability) :
  SimpleVerification.validate_and_sum sum probabilities
    = ComprehensiveVerify.SetCPT_loop probabilities sum.
Proof.
  revert sum; induction probabilities as [|p rest IH]; intros sum; simpl.
  - reflexivity.
  - rewrite Validate_copies.
    destruct (ComprehensiveVerify.Validate p); [apply IH | reflexivity].
Qed.

Lemma SetCPT_simple_comprehensive (n : Node) (parentStates : string)
  (probabilities : list Probability) :
  SimpleVerification.SetCPT n parentStates probabilities
    = ComprehensiveVerify.SetCPT n parentStates probabilities.
Proof.
  unfold SimpleVerification.SetCPT, ComprehensiveVerify.SetCPT.
  rewrite validate_and_sum_copies.
  destruct (Nat.eqb_spec (length probabilities) (length (States n))) as [H|H].
  - now rewrite bool_decide_eq_false_2 by (intros Hne; apply Hne, H).
  - now rewrite bool_decide_eq_true_2 by exact H.
Qed.

(** C6, as stated, fails: on the list [0.5, 0.3] the [SetCPT] of
    comprehensive_verify.go rejects and leaves the CPT empty, the one of
    verify_examples.go accepts and stores the list. *)
Lemma SetCPT_copies_differ :
  ¬ (same_SetCPT ComprehensiveVerify.SetCPT SimpleVerification.SetCPT
     ∧ same_SetCPT ComprehensiveVerify.SetCPT VerifyExamples.SetCPT).
Proof.
  intros [_ Hsame].
  destruct (Hsame TestNode "invalid" [0.5%float; 0.3%float]) as [Hresult _].
  vm_compute in Hresult. discriminate Hresult.
Qed.

(** C6, amended. The [SetCPT] of comprehensive_verify.go and the one of the
    simple verification script compute the same function. The [SetCPT] of
    verify_examples.go validates nothing: it always stores the list and
    returns [nil]; it agrees with the other two on every input they accept. *)
Theorem SetCPT_copies_agree :
  same_SetCPT ComprehensiveVerify.SetCPT SimpleVerification.SetCPT
  ∧ ∀ (n : Node) (parentStates : string) (probabilities : list Probability),
      ComprehensiveVerify.SetCPT n parentStates probabilities
        = SimpleVerification.SetCPT n parentStates probabilities
      ∧ VerifyExamples.SetCPT n parentStates probabilities
        = (store_CPT n parentStates probabilities, nil_error)
      ∧ (is_nil (ComprehensiveVerify.SetCPT n parentStates probabilities).2 = true →
         VerifyExamples.SetCPT n parentStates probabilities
           = ComprehensiveVerify.SetCPT n parentStates probabilities).
Proof.
  split.
  - intros n parentStates probabilities.
    now rewrite SetCPT_simple_comprehensive.
  - intros n parentStates probabilities.
    split; [symmetry; apply SetCPT_simple_comprehensive|].
    split; [reflexivity|].
    unfold ComprehensiveVerify.SetCPT, VerifyExamples.SetCPT.
    destruct (negb _); [discriminate|].
    pose proof (SetCPT_loop_spec probabilities 0%float) as Hloop.
    destruct (ComprehensiveVerify.SetCPT_loop probabilities 0%float) as [e|total].
    + destruct Hloop as [_ He]. simpl. rewrite He. discriminate.
    + destruct (1e-6 <? abs (total - 1))%float; [discriminate | reflexivity].
Qed.

Lemma SetCPT_copies_agree_witness :
  VerifyExamples.SetCPT TestNode "" [0.7%float; 0.3%float]
    = ComprehensiveVerify.SetCPT TestNode "" [0.7%float; 0.3%float].
Proof.
  apply (proj2 SetCPT_copies_agree TestNode "" [0.7%float; 0.3%float]).
  reflexivity.
Defined.

End SetCPT_copies.

(** ** Facts about binary64 values

    The primitive operations are specified on [spec_float] (the IEEE 754
    values without NaN payloads); the facts below are read off those
    specifications. *)

Section Float_facts.

Lemma Pos_compare_cont_Eq_antisym (m1 m2 : positive) :
  Pos.compare_cont Eq m2 m1 = CompOpp (Pos.compare_cont Eq m1 m2).
Proof. apply (Pos.compare_antisym m1 m2). Qed.

(** Comparing the other way round gives the opposite verdict (and no
    verdict when one side is NaN). *)
Lemma SFcompare_antisym (x y : spec_float) :
  SFcompare y x = option_map CompOpp (SFcompare x y).
Proof.
  destruct x as [sx|sx| |sx mx ex], y as [sy|sy| |sy my ey]; simpl;
    try reflexivity;
    try (destruct sx; reflexivity);
    try (destruct sy; reflexivity);
    try (destruct sx, sy; reflexivity).
  destruct sx, sy; simpl; try reflexivity;
    rewrite (Z.compare_antisym ex ey), Pos_compare_cont_Eq_antisym;
    destruct (ex ?= ey); simpl; try reflexivity;
    destruct (Pos.compare_cont Eq mx my); reflexivity.
Qed.

Lemma leb_true_ltb_false (x y : float) :
  (x <=? y)%float = true → (y <? x)%float = false.
Proof.
  rewrite FloatAxioms.leb_spec, FloatAxioms.ltb_spec. unfold SFleb, SFltb.
  rewrite (SFcompare_antisym (Prim2SF x) (Prim2SF y)).
  destruct (SFcompare (Prim2SF x) (Prim2SF y)) as [[]|]; simpl; congruence.
Qed.

Lemma ltb_true_leb_false (x y : float) :
  (y <? x)%float = true → (x <=? y)%float = false.
Proof.
  intros H. destruct (x <=? y)%float eqn:E; [|reflexivity].
  apply leb_true_ltb_false in E. congruence.
Qed.

(** Two values that are not NaN are always comparable. *)
Lemma ltb_false_leb_true (x y : float) :
  is_nan x = false → is_nan y = false →
  (y <? x)%float = false → (x <=? y)%float = true.
Proof.
  intros Hx Hy. apply negb_false_iff in Hx, Hy. revert Hx Hy.
  rewrite !FloatAxioms.eqb_spec, FloatAxioms.leb_spec, FloatAxioms.ltb_spec.
  unfold SFeqb, SFleb, SFltb.
  rewrite (SFcompare_antisym (Prim2SF x) (Prim2SF y)).
  destruct (Prim2SF x) as [sx|sx| |sx mx ex], (Prim2SF y) as [sy|sy| |sy my ey];
    simpl; try discriminate; intros _ _;
    try (destruct sx; simpl; congruence);
    try (destruct sy; simpl; congruence);
    try (destruct sx, sy; simpl; congruence).
  destruct sx, sy; simpl; try congruence;
    destruct (ex ?= ey); simpl; try congruence;
    destruct (Pos.compare_cont Eq mx my); simpl; congruence.
Qed.

Lemma SFsame_refl (x : spec_float) : SFsame x x.
Proof. left; reflexivity. Qed.

Lemma SFsame_sym (x y : spec_float) : SFsame x y → SFsame y x.
Proof.
  intros [->|(sx & sy & -> & ->)]; [left; reflexivity | right; eauto].
Qed.

Lemma SFsame_trans (x y z : spec_float) :
  SFsame x y → SFsame y z → SFsame x z.
Proof.
  intros [Hxy|(sx & sy & Hx & Hy)] [Hyz|(sy' & sz & Hy' & Hz)]; subst.
  - left; reflexivity.
  - right; eauto.
  - right; eauto.
  - right; eauto.
Qed.

Lemma SFsame_zero (sx sy : bool) : SFsame (S754_zero sx) (S754_zero sy).
Proof. right; eauto. Qed.

Lemma SFsame_opp (x y : spec_float) : SFsame x y → SFsame (SFopp x) (SFopp y).
Proof.
  intros [->|(sx & sy & -> & ->)]; [apply SFsame_refl | apply SFsame_zero].
Qed.

Variables prec emax : Z.

(** Subtracting the same value from two values that differ at most in the
    sign of a zero. *)
Lemma SFsame_sub_l (x x' a : spec_float) :
  SFsame x x' → SFsame (SFsub prec emax x a) (SFsub prec emax x' a).
Proof.
  intros [->|(sx & sx' & -> & ->)]; [apply SFsame_refl|].
  destruct a as [sa|sa| |sa ma ea]; simpl; try apply SFsame_refl.
  destruct sx, sx', sa; apply SFsame_zero.
Qed.

(** Rounding does not look at the sign. *)
Lemma SFopp_binary_round (s : bool) (m : positive) (e : Z) :
  SFopp (binary_round prec emax s m e) = binary_round prec emax (negb s) m e.
Proof.
  unfold binary_round, binary_round_aux.
  destruct (shl_align m e _) as [mz ez].
  destruct (shr_fexp prec emax (Z.pos mz) ez loc_Exact) as [mrs' e'].
  destruct (shr_fexp prec emax _ e' loc_Exact) as [mrs'' e''].
  destruct (shr_m mrs'') as [|m''|m'']; simpl; try reflexivity.
  destruct (e'' <=? emax - prec); reflexivity.
Qed.

Lemma SFopp_binary_normalize (z e : Z) :
  SFsame (SFopp (binary_normalize prec emax z e false))
         (binary_normalize prec emax (- z) e false).
Proof.
  destruct z as [|m|m]; simpl.
  - apply SFsame_zero.
  - left. apply SFopp_binary_round.
  - left. apply SFopp_binary_round.
Qed.

Lemma cond_Zopp_negb (s : bool) (z : Z) :
  cond_Zopp (negb s) z = - cond_Zopp s z.
Proof. destruct s; simpl; lia. Qed.

(** The negation of a sum is the negated first term minus the second. *)
Lemma SFopp_add (x y : spec_float) :
  SFsame (SFopp (SFadd prec emax x y)) (SFsub prec emax (SFopp x) y).
Proof.
  destruct x as [sx|sx| |sx mx ex], y as [sy|sy| |sy my ey]; simpl;
    try apply SFsame_refl;
    try (destruct sx, sy; simpl; first [apply SFsame_refl | apply SFsame_zero]).
  eapply SFsame_trans; [apply SFopp_binary_normalize|].
  rewrite cond_Zopp_negb. left. f_equal. lia.
Qed.

End Float_facts.

(** ** Rounding never produces a NaN *)

Section Rounding_numbers.

Variables prec emax : Z.

Lemma shr_1_nonneg (mrs : shr_record) : 0 ≤ shr_m mrs → 0 ≤ shr_m (shr_1 mrs).
Proof.
  destruct mrs as [m r s]. simpl.
  destruct m as [|[p|p|]|p]; simpl; lia.
Qed.

Lemma iter_shr_1_nonneg (p : positive) (mrs : shr_record) :
  0 ≤ shr_m mrs → 0 ≤ shr_m (SpecFloat.iter_pos shr_1 p mrs).
Proof.
  revert mrs; induction p as [p IH|p IH|]; intros mrs H; simpl;
    auto using shr_1_nonneg.
Qed.

Lemma shr_fexp_nonneg (m e : Z) (l : location) :
  0 ≤ m → 0 ≤ shr_m (shr_fexp prec emax m e l).1.
Proof.
  intros Hm. unfold shr_fexp, shr.
  assert (H0 : 0 ≤ shr_m (shr_record_of_loc m l)).
  { destruct l as [|[]]; exact Hm. }
  destruct (fexp prec emax (Zdigits2 m + e) - e); simpl;
    auto using iter_shr_1_nonneg.
Qed.

Lemma round_nearest_even_nonneg (m : Z) (l : location) :
  0 ≤ m → 0 ≤ round_nearest_even m l.
Proof.
  intros Hm. destruct l as [|[]]; simpl; try lia.
  destruct (Z.even m); lia.
Qed.

Lemma binary_round_aux_number (sx : bool) (m : positive) (e : Z) :
  binary_round_aux prec emax sx (Z.pos m) e loc_Exact ≠ S754_nan.
Proof.
  unfold binary_round_aux.
  pose proof (shr_fexp_nonneg (Z.pos m) e loc_Exact ltac:(lia)) as H1.
  destruct (shr_fexp prec emax (Z.pos m) e loc_Exact) as [mrs' e']. simpl in H1.
  pose proof (shr_fexp_nonneg _ e' loc_Exact
                (round_nearest_even_nonneg _ (loc_of_shr_record mrs') H1)) as H2.
  destruct (shr_fexp prec emax _ e' loc_Exact) as [mrs'' e'']. simpl in H2.
  destruct (shr_m mrs'') as [|m''|m'']; [discriminate | | lia].
  destruct (e'' <=? emax - prec); discriminate.
Qed.

Lemma binary_normalize_number (m e : Z) (szero : bool) :
  binary_normalize prec emax m e szero ≠ S754_nan.
Proof.
  destruct m as [|m|m]; simpl; [discriminate | |];
    unfold binary_round; destruct (shl_align _ _ _) as [mz ez];
    apply binary_round_aux_number.
Qed.

(** Adding a zero or a finite value to a number gives a number. *)
Lemma SFadd_number (x y : spec_float) :
  x ≠ S754_nan → (∀ s, y ≠ S754_infinity s) → y ≠ S754_nan →
  SFadd prec emax x y ≠ S754_nan.
Proof.
  intros Hx Hy Hy'.
  destruct x as [sx|sx| |sx mx ex], y as [sy|sy| |sy my ey]; simpl;
    try congruence; try (destruct sx, sy; discriminate);
    try (exfalso; eapply Hy; reflexivity).
  apply binary_normalize_number.
Qed.

Lemma SFsub_number (x y : spec_float) :
  x ≠ S754_nan → (∀ s, y ≠ S754_infinity s) → y ≠ S754_nan →
  SFsub prec emax x y ≠ S754_nan.
Proof.
  intros Hx Hy Hy'.
  destruct x as [sx|sx| |sx mx ex], y as [sy|sy| |sy my ey]; simpl;
    try congruence; try (destruct sx, sy; discriminate);
    try (exfalso; eapply Hy; reflexivity).
  apply binary_normalize_number.
Qed.

End Rounding_numbers.

(** ** NaN in sums *)

Section NaN_facts.

(** There is one NaN. *)
Lemma Prim2SF_nan (x : float) : Prim2SF x = S754_nan ↔ x = nan.
Proof.
  split; [|intros ->; reflexivity].
  intros H. apply Prim2SF_inj. rewrite H. reflexivity.
Qed.

Lemma SFcompare_refl (x : spec_float) :
  x ≠ S754_nan → SFcompare x x = Some Eq.
Proof.
  destruct x as [s|s| |s m e]; simpl; try congruence;
    try (destruct s; reflexivity).
  intros _. destruct s; rewrite Z.compare_refl, ?Pos.compare_cont_refl;
    reflexivity.
Qed.

(** Go's test [x != x] singles out NaN. *)
Lemma is_nan_true (x : float) : is_nan x = true ↔ x = nan.
Proof.
  split; [|intros ->; reflexivity].
  unfold is_nan. rewrite FloatAxioms.eqb_spec. unfold SFeqb.
  intros H. apply Prim2SF_nan.
  destruct (Prim2SF x) as [s|s| |s m e] eqn:E; [| |reflexivity|];
    rewrite SFcompare_refl in H by discriminate; discriminate.
Qed.

Lemma is_nan_false (x : float) : is_nan x = false ↔ x ≠ nan.
Proof.
  rewrite <- is_nan_true. destruct (is_nan x); split; congruence.
Qed.

(** A value of [0,1] is zero or finite. *)
Lemma in_unit_finite (p : Probability) :
  in_unit p →
  Prim2SF p ≠ S754_nan ∧ ∀ s : bool, Prim2SF p ≠ S754_infinity s.
Proof.
  intros [Hlow Hhigh]. rewrite FloatAxioms.leb_spec in Hlow, Hhigh.
  change (Prim2SF 0) with (S754_zero false) in Hlow.
  change (Prim2SF 1) with (S754_finite false 4503599627370496 (-52)) in Hhigh.
  destruct (Prim2SF p) as [s|s| |s m e]; try discriminate.
  - split; [discriminate | intros s'; discriminate].
  - destruct s; discriminate.
  - split; [discriminate | intros s'; discriminate].
Qed.

Lemma in_unit_not_nan (p : Probability) : in_unit p → p ≠ nan.
Proof.
  intros Hp. rewrite <- Prim2SF_nan. apply in_unit_finite, Hp.
Qed.

Lemma add_number (x p : float) : x ≠ nan → in_unit p → (x + p)%float ≠ nan.
Proof.
  intros Hx Hp. rewrite <- Prim2SF_nan in *. rewrite FloatAxioms.add_spec.
  destruct (in_unit_finite p Hp) as [Hnan Hinf].
  now apply SFadd_number.
Qed.

Lemma add_nan_l (y : float) : (nan + y)%float = nan.
Proof.
  apply Prim2SF_nan. rewrite FloatAxioms.add_spec. reflexivity.
Qed.

Lemma add_nan_r (x : float) : (x + nan)%float = nan.
Proof.
  apply Prim2SF_nan. rewrite FloatAxioms.add_spec.
  change (Prim2SF nan) with S754_nan. destruct (Prim2SF x); reflexivity.
Qed.

Lemma fold_add_nan (l : list Probability) :
  fold_left PrimFloat.add l nan = nan.
Proof.
  induction l as [|p l IH]; simpl; [reflexivity|]. now rewrite add_nan_l.
Qed.

(** A NaN entry makes the sum NaN. *)
Lemma fold_add_nan_entry (l : list Probability) (acc : Probability) :
  nan ∈ l → fold_left PrimFloat.add l acc = nan.
Proof.
  revert acc; induction l as [|p l IH]; intros acc Hin; simpl.
  - now apply elem_of_nil in Hin.
  - apply elem_of_cons in Hin as [<-|Hin]; [|now apply IH].
    rewrite add_nan_r. apply fold_add_nan.
Qed.

(** Entries of [0,1] have a sum that is a number. *)
Lemma fold_add_number (l : list Probability) (acc : Probability) :
  acc ≠ nan → Forall in_unit l → fold_left PrimFloat.add l acc ≠ nan.
Proof.
  revert acc; induction l as [|p l IH]; intros acc Hacc Hall; simpl;
    [exact Hacc|].
  apply Forall_cons_iff in Hall as [Hp Hl].
  apply IH; [|exact Hl]. now apply add_number.
Qed.

(** The distance from 1 of a number is a number. *)
Lemma distance_number (x : float) : x ≠ nan → abs (x - 1)%float ≠ nan.
Proof.
  intros Hx. rewrite <- Prim2SF_nan in *.
  rewrite FloatAxioms.abs_spec, FloatAxioms.sub_spec.
  assert (H : SF64sub (Prim2SF x) (Prim2SF 1) ≠ S754_nan).
  { apply SFsub_number; [exact Hx | |];
      change (Prim2SF 1) with (S754_finite false 4503599627370496 (-52));
      [intros s|]; discriminate. }
  destruct (SF64sub (Prim2SF x) (Prim2SF 1)); simpl; congruence.
Qed.

End NaN_facts.

(** ** The range of [Probability] values *)

Section Probability_range.
Import ComprehensiveVerify.

(** C3, as stated, fails whatever [math.Log] computes: for the distribution
    with the single entry 0, [LogProb] of outcome 0 is -1e9. *)
Lemma LogProb_outside_unit_interval :
  ¬ ∃ math_Log : float → float, Probability_always_bounded math_Log.
Proof.
  intros [math_Log [_ Hops]].
  destruct (Hops (NewCategorical [0%float]) 0) as (_ & [Hlow _] & _).
  vm_compute in Hlow. discriminate Hlow.
Qed.

Lemma in_unit_not_outside (p : Probability) : in_unit p → ¬ outside_unit p.
Proof.
  intros [Hlow Hhigh] [Hneg|Hbig].
  - apply leb_true_ltb_false in Hlow. congruence.
  - apply leb_true_ltb_false in Hhigh. congruence.
Qed.

Lemma not_outside_in_unit (p : Probability) :
  is_nan p = false → ¬ outside_unit p → in_unit p.
Proof.
  intros Hnan Hout. split.
  - apply ltb_false_leb_true; [reflexivity | exact Hnan |].
    destruct (p <? 0)%float eqn:E; [exfalso; apply Hout; left; exact E | reflexivity].
  - apply ltb_false_leb_true; [exact Hnan | reflexivity |].
    destruct (1 <? p)%float eqn:E; [exfalso; apply Hout; right; exact E | reflexivity].
Qed.

Lemma in_unit_zero : in_unit 0%float.
Proof. split; reflexivity. Qed.

(** [Prob] returns an entry of the distribution or 0. *)
Lemma Prob_entry_or_zero (c : Categorical) (outcome : Z) :
  Prob c outcome ∈ Probs c ∨ Prob c outcome = 0%float.
Proof.
  unfold Prob. destruct (_ && _); [|right; reflexivity].
  destruct (Probs c !! Z.to_nat outcome) as [p|] eqn:E; [|right; reflexivity].
  left. eapply list_elem_of_lookup_2; exact E.
Qed.

(** C3, amended. [Validate] returns [nil] for every value with
    [0 <= p <= 1] and an error for every value with [p < 0] or [p > 1]; on
    values that are numbers it returns [nil] exactly on [0,1]. The values
    the operations return are not bounded: [Prob] returns an entry
    unchanged (or 0), so it lies in [0,1] when every entry does, and
    [LogProb] returns -1e9, which [Validate] rejects, whenever that
    probability is 0. *)
Theorem Probability_Validate_range (math_Log : float → float) :
  (∀ p : Probability, in_unit p → Validate p = nil_error)
  ∧ (∀ p : Probability,
       outside_unit p →
       Validate p = Errorf "probability must be between 0 and 1")
  ∧ (∀ p : Probability,
       is_nan p = false → (Validate p = nil_error ↔ in_unit p))
  ∧ (∀ (c : Categorical) (outcome : Z),
       Forall in_unit (Probs c) → in_unit (Prob c outcome))
  ∧ (∀ (c : Categorical) (outcome : Z),
       (Prob c outcome =? 0)%float = true →
       LogProb math_Log c outcome = (-1e9)%float
       ∧ is_nil (Validate (LogProb math_Log c outcome)) = false).
Proof.
  split; [|split; [|split; [|split]]].
  - intros p Hp. apply Validate_nil_iff, in_unit_not_outside, Hp.
  - intros p Hp. apply Validate_error_iff, Hp.
  - intros p Hnan. rewrite Validate_nil_iff. split.
    + apply not_outside_in_unit, Hnan.
    + apply in_unit_not_outside.
  - intros c outcome Hall.
    destruct (Prob_entry_or_zero c outcome) as [Hin| ->]; [|apply in_unit_zero].
    rewrite Forall_forall in Hall. apply Hall, Hin.
  - intros c outcome Hzero. unfold LogProb. rewrite Hzero.
    split; reflexivity.
Qed.

Lemma Probability_Validate_range_witness :
  Validate 0.5%float = nil_error
  ∧ Validate 1.5%float = Errorf "probability must be between 0 and 1"
  ∧ in_unit (Prob (NewCategorical [0.2%float; 0.3%float; 0.5%float]) 1)
  ∧ LogProb (fun x => x) (NewCategorical [0%float; 1%float]) 0 = (-1e9)%float.
Proof.
  destruct (Probability_Validate_range (fun x => x))
    as (Hin & Hout & _ & Hprob & Hlog).
  split; [|split; [|split]].
  - apply Hin. split; reflexivity.
  - apply Hout. right; reflexivity.
  - apply Hprob. repeat constructor.
  - apply Hlog. reflexivity.
Defined.

End Probability_range.

(** ** NaN in a CPT row *)

Section SetCPT_NaN.
Import ComprehensiveVerify.

Lemma nan_not_outside : ¬ outside_unit nan.
Proof. intros [H|H]; vm_compute in H; discriminate. Qed.

Lemma nan_not_in_unit : ¬ in_unit nan.
Proof. intros [H _]; vm_compute in H; discriminate. Qed.

(** The entries [Validate] lets through are NaN and the values of [0,1]. *)
Lemma not_outside_iff (p : Probability) :
  ¬ outside_unit p ↔ p = nan ∨ in_unit p.
Proof.
  split.
  - intros H. destruct (is_nan p) eqn:E.
    + left. now apply is_nan_true.
    + right. now apply not_outside_in_unit.
  - intros [->|H]; [apply nan_not_outside | now apply in_unit_not_outside].
Qed.

Lemma nan_entry_or_in_unit (row : list Probability) :
  Forall (fun p => p = nan ∨ in_unit p) row → nan ∈ row ∨ Forall in_unit row.
Proof.
  induction 1 as [|p row Hp _ IH].
  - right. constructor.
  - destruct Hp as [->|Hp]; [left; apply elem_of_cons; now left|].
    destruct IH as [IH|IH].
    + left. apply elem_of_cons. now right.
    + right. now constructor.
Qed.

(** The sum of a list that holds a NaN passes the test of the sum; the sum
    of a list of values of [0,1] passes it exactly when it is within 1e-6
    of 1. *)
Lemma sum_test_iff (row : list Probability) :
  Forall (fun p => p = nan ∨ in_unit p) row →
  ¬ sum_off_one row
  ↔ nan ∈ row ∨ (abs (float_sum row - 1) <=? 1e-6)%float = true.
Proof.
  intros Hrow. unfold sum_off_one. split.
  - intros Hsum. destruct (nan_entry_or_in_unit row Hrow) as [Hnan|Hall];
      [now left | right].
    apply ltb_false_leb_true; [|reflexivity|].
    + apply is_nan_false, distance_number. unfold float_sum.
      apply fold_add_number; [|exact Hall].
      intros H. apply (f_equal is_nan) in H. vm_compute in H. discriminate.
    + destruct (1e-6 <? abs (float_sum row - 1))%float; [now elim Hsum|].
      reflexivity.
  - intros [Hnan|Hclose] Hsum.
    + unfold float_sum in Hsum. rewrite (fold_add_nan_entry row _ Hnan) in Hsum.
      vm_compute in Hsum. discriminate.
    + apply leb_true_ltb_false in Hclose. congruence.
Qed.

(** The loop of [SetCPT] and its test of the sum, for any way of storing
    the list: [nil] is returned exactly for the lists with every entry NaN
    or in [0,1] and with a NaN entry or a sum within 1e-6 of 1; then the
    list is stored, otherwise the node is as before. *)
Lemma SetCPT_loop_and_sum {A : Type} (row : list Probability) (n stored : A) :
  let result :=
    match SetCPT_loop row 0%float with
    | inl e => (n, e)
    | inr sum =>
        if (1e-6 <? abs (sum - 1))%float
        then (n, Errorf "probabilities must sum to 1")
        else (stored, nil_error)
    end in
  (is_nil result.2 = true
   ↔ Forall (fun p => p = nan ∨ in_unit p) row
     ∧ (nan ∈ row ∨ (abs (float_sum row - 1) <=? 1e-6)%float = true))
  ∧ result.1 = (if is_nil result.2 then stored else n).
Proof.
  pose proof (SetCPT_loop_spec row 0%float) as Hloop.
  destruct (SetCPT_loop row 0%float) as [e|total]; cbv zeta.
  - destruct Hloop as [Hex He]. cbn [fst snd]. rewrite He.
    split; [|reflexivity]. split; [discriminate|].
    intros [Hall _]. exfalso. apply (Exists_not_Forall_outside row Hex).
    eapply Forall_impl; [exact Hall|]. intros p. apply not_outside_iff.
  - destruct Hloop as [Hall ->]. fold (float_sum row).
    assert (Hrow : Forall (fun p => p = nan ∨ in_unit p) row).
    { eapply Forall_impl; [exact Hall|]. intros p. apply not_outside_iff. }
    pose proof (sum_test_iff row Hrow) as Hsum. unfold sum_off_one in Hsum.
    destruct (1e-6 <? abs (float_sum row - 1))%float; cbn [fst snd is_nil].
    + split; [|reflexivity]. split; [discriminate|].
      intros [_ H]. apply Hsum in H. now elim H.
    + split; [|reflexivity]. split; [|reflexivity].
      intros _. split; [exact Hrow|]. apply Hsum. discriminate.
Qed.

(** [SetCPT] returns [nil] exactly for the lists described by
    [row_checked]. *)
Lemma SetCPT_nil_iff (n : Node) (parentStates : string)
  (probabilities : list Probability) :
  (is_nil (SetCPT n parentStates probabilities).2 = true
   ↔ row_checked (length (States n)) probabilities)
  ∧ (SetCPT n parentStates probabilities).1
    = (if is_nil (SetCPT n parentStates probabilities).2
       then store_CPT n parentStates probabilities
       else n).
Proof.
  unfold SetCPT, row_checked.
  destruct (Nat.eqb_spec (length probabilities) (length (States n)))
    as [Hlen|Hlen]; cbn [negb].
  - destruct (SetCPT_loop_and_sum probabilities n
                (store_CPT n parentStates probabilities)) as [Hnil Hnode].
    cbv zeta in Hnil, Hnode. split; [|exact Hnode].
    rewrite Hnil. tauto.
  - cbn [fst snd is_nil]. split; [|reflexivity].
    split; [discriminate | tauto].
Qed.

(** C2. The validation misses NaN: a list of the right length that holds a
    NaN, its other entries in [0,1], is stored and [nil] is returned, by
    [SetCPT] of comprehensive_verify.go and by [SetCPT] of the simple
    verification script alike, although an entry of the list is not in
    [0,1] (and the sum is no number within 1e-6 of 1). *)
Theorem SetCPT_stores_NaN_row (n : Node) (parentStates : string)
  (probabilities : list Probability) :
  length probabilities = length (States n) →
  nan ∈ probabilities →
  Forall (fun p => p = nan ∨ in_unit p) probabilities →
  ComprehensiveVerify.SetCPT n parentStates probabilities
    = (store_CPT n parentStates probabilities, nil_error)
  ∧ SimpleVerification.SetCPT n parentStates probabilities
    = (store_CPT n parentStates probabilities, nil_error)
  ∧ Exists (fun p => ¬ in_unit p) probabilities
  ∧ (abs (float_sum probabilities - 1) <=? 1e-6)%float = false.
Proof.
  intros Hlen Hnan Hrow.
  assert (Hcall : SetCPT n parentStates probabilities
                  = (store_CPT n parentStates probabilities, nil_error)).
  { destruct (SetCPT_nil_iff n parentStates probabilities) as [Hnil Hnode].
    assert (He : is_nil (SetCPT n parentStates probabilities).2 = true).
    { apply Hnil. split; [exact Hlen|]. split; [exact Hrow | now left]. }
    rewrite He in Hnode.
    destruct (SetCPT n parentStates probabilities) as [n1 e].
    cbn [fst snd] in *. subst n1. destruct e; [reflexivity | discriminate]. }
  split; [exact Hcall|]. split; [|split].
  - rewrite SetCPT_simple_comprehensive. exact Hcall.
  - apply Exists_exists. exists nan. split; [exact Hnan | apply nan_not_in_unit].
  - unfold float_sum. rewrite (fold_add_nan_entry _ _ Hnan). reflexivity.
Qed.

Lemma SetCPT_stores_NaN_row_witness :
  ComprehensiveVerify.SetCPT TestNode "" [nan; 0.5%float]
    = (store_CPT TestNode "" [nan; 0.5%float], nil_error)
  ∧ SimpleVerification.SetCPT TestNode "" [nan; 0.5%float]
    = (store_CPT TestNode "" [nan; 0.5%float], nil_error)
  ∧ Exists (fun p => ¬ in_unit p) [nan; 0.5%float]
  ∧ (abs (float_sum [nan; 0.5%float] - 1) <=? 1e-6)%float = false.
Proof.
  apply (SetCPT_stores_NaN_row TestNode "" [nan; 0.5%float]).
  - reflexivity.
  - apply elem_of_cons. left. reflexivity.
  - constructor; [left; reflexivity|].
    constructor; [right; split; reflexivity | constructor].
Defined.

End SetCPT_NaN.

(** ** The entropy of a categorical distribution *)

Section Entropy_formula.
Import ComprehensiveVerify.

Variable math_Log : float → float.

Lemma SFsame_same_number (x y : float) :
  SFsame (Prim2SF x) (Prim2SF y) → same_number x y.
Proof.
  intros [H|(sx & sy & Hx & Hy)].
  - left. apply Prim2SF_inj, H.
  - right. rewrite !FloatAxioms.eqb_spec, Hx, Hy. split; reflexivity.
Qed.

Lemma positive_entries_idempotent (probs : list Probability) :
  positive_entries (positive_entries probs) = positive_entries probs.
Proof.
  unfold positive_entries.
  induction probs as [|p rest IH]; simpl; [reflexivity|].
  destruct (0 <? p)%float eqn:Hp; simpl; [rewrite Hp, IH; reflexivity | exact IH].
Qed.

(** The loop only ever subtracts the terms of the positive entries. *)
Lemma Entropy_skips_nonpositive (probs : list Probability) (h : Probability) :
  fold_left (Entropy_step math_Log) probs h
    = fold_left (fun acc p => (acc - plogp math_Log p)%float)
        (positive_entries probs) h.
Proof.
  revert h; induction probs as [|p rest IH]; intros h; simpl; [reflexivity|].
  unfold Entropy_step at 2.
  destruct (0 <? p)%float; simpl; apply IH.
Qed.

(** Subtracting the terms one by one keeps the accumulator the negation of
    the running sum. *)
Lemma subtract_terms_negates_sum (terms : list Probability) (h s : float) :
  SFsame (Prim2SF h) (SFopp (Prim2SF s)) →
  SFsame (Prim2SF (fold_left (fun acc t => (acc - t)%float) terms h))
         (SFopp (Prim2SF (fold_left PrimFloat.add terms s))).
Proof.
  revert h s; induction terms as [|t rest IH]; intros h s Hinv; simpl.
  - exact Hinv.
  - apply IH. rewrite sub_spec, add_spec.
    eapply SFsame_trans; [apply SFsame_sub_l, Hinv|].
    apply SFsame_sym, SFopp_add.
Qed.

Lemma fold_left_map_terms (probs : list Probability) (h : float) :
  fold_left (fun acc p => (acc - plogp math_Log p)%float) probs h
    = fold_left (fun acc t => (acc - t)%float) (map (plogp math_Log) probs) h.
Proof.
  revert h; induction probs as [|p rest IH]; intros h; simpl;
    [reflexivity | apply IH].
Qed.

(** C5. [Entropy] is the negative sum of [p * ln p] over exactly the entries
    of [c.Probs] that are strictly greater than 0: the loop subtracts the
    terms of those entries, in order, from 0 and skips every other entry,
    and its result is the negated sum of those terms. *)
Theorem Entropy_negative_sum (c : Categorical) :
  Entropy math_Log c
    = fold_left (fun acc p => (acc - plogp math_Log p)%float)
        (positive_entries (Probs c)) 0%float
  ∧ Entropy math_Log c
    = Entropy math_Log (NewCategorical (positive_entries (Probs c)))
  ∧ same_number (Entropy math_Log c) (negative_plogp_sum math_Log (Probs c)).
Proof.
  unfold Entropy. split; [apply Entropy_skips_nonpositive|]. split.
  - rewrite !Entropy_skips_nonpositive. simpl.
    now rewrite positive_entries_idempotent.
  - apply SFsame_same_number.
    rewrite Entropy_skips_nonpositive, fold_left_map_terms.
    unfold negative_plogp_sum, float_sum. rewrite opp_spec.
    apply subtract_terms_negates_sum. apply SFsame_zero.
Qed.

End Entropy_formula.

(** ** The comprehensive test runner: [main] *)

Section Runner_main.
Import TestRunner.

Variable world : nat → list string → CommandRun.

Lemma results_from_length (k : nat) (modules : list string) :
  length (results_from world k modules) = length modules.
Proof.
  revert k; induction modules as [|m rest IH]; intros k; simpl;
    [reflexivity | now rewrite IH].
Qed.

Lemma results_from_modules (k : nat) (modules : list string) :
  map Module_ (results_from world k modules) = modules.
Proof.
  revert k; induction modules as [|m rest IH]; intros k; simpl;
    [reflexivity | now rewrite IH].
Qed.

Lemma results_from_lookup (k j : nat) (modules : list string) (r : TestResult) :
  results_from world k modules !! j = Some r ↔
  ∃ module : string,
    modules !! j = Some module ∧ r = runModuleTests world (k + j) module.
Proof.
  revert k j; induction modules as [|m rest IH]; intros k j; simpl.
  - split; [discriminate | intros (module & H & _); discriminate].
  - destruct j as [|j]; simpl.
    + rewrite Nat.add_0_r. split.
      * intros [= <-]. eauto.
      * intros (module & [= <-] & ->). reflexivity.
    + rewrite IH. replace (S k + j)%nat with (k + S j)%nat by lia. reflexivity.
Qed.

Lemma runSequentialTests_loop_spec (k : nat) (modules : list string)
  (acc : list TestResult) :
  runSequentialTests_loop world k modules acc = acc ++ results_from world k modules.
Proof.
  revert k acc; induction modules as [|m rest IH]; intros k acc; simpl.
  - now rewrite app_nil_r.
  - rewrite IH, <- app_assoc. reflexivity.
Qed.

Lemma count_passed_cons (r : TestResult) (rs : list TestResult) :
  count_passed (r :: rs) = (if Passed r then 1 else 0) + count_passed rs.
Proof.
  unfold count_passed. simpl. destruct (Passed r); simpl; lia.
Qed.

Lemma count_passed_le (rs : list TestResult) :
  0 ≤ count_passed rs ≤ Z.of_nat (length rs).
Proof.
  induction rs as [|r rs IH]; [unfold count_passed; simpl; lia|].
  rewrite count_passed_cons. simpl length. destruct (Passed r); lia.
Qed.

Lemma count_passed_all (rs : list TestResult) :
  count_passed rs = Z.of_nat (length rs) ↔ Forall (fun r => Passed r = true) rs.
Proof.
  induction rs as [|r rs IH]; [split; [constructor | reflexivity]|].
  rewrite count_passed_cons, Forall_cons_iff, <- IH. simpl length.
  pose proof (count_passed_le rs).
  destruct (Passed r).
  - split; [intros H1; split; [reflexivity | lia] | intros [_ H1]; lia].
  - split; [lia | intros [H1 _]; discriminate].
Qed.

(** The first loop of [main]: three lines, one result and one count per
    module. *)
Lemma main_run_loop_spec (k : nat) (modules : list string) (st : main_state) :
  main_run_loop world k modules st =
    {| printed := printed st ++ flat_map report (results_from world k modules);
       results := results st ++ results_from world k modules;
       passedTests := passedTests st + count_passed (results_from world k modules) |}.
Proof.
  revert k st; induction modules as [|m rest IH]; intros k st.
  - simpl. rewrite !app_nil_r. unfold count_passed; simpl.
    rewrite Z.add_0_r. destruct st; reflexivity.
  - cbn [main_run_loop results_from]. rewrite IH, count_passed_cons.
    cbn [flat_map]. unfold report at 2.
    change (Module_ (runModuleTests world k m)) with m.
    destruct (Passed (runModuleTests world k m)); unfold print; simpl;
      rewrite <- !app_assoc; simpl; f_equal; lia.
Qed.

(** The details loop only appends lines. *)
Lemma main_failed_details_extends (rs : list TestResult) (failedCount : Z)
  (out : list line) :
  ∃ details : list line, main_failed_details rs failedCount out = out ++ details.
Proof.
  revert failedCount out; induction rs as [|r rs IH]; intros failedCount out;
    simpl.
  - exists []. now rewrite app_nil_r.
  - destruct (Passed r); simpl; [apply IH|].
    destruct (failedCount =? 0);
      match goal with
      | |- context [main_failed_details rs ?c ?o] =>
          destruct (IH c o) as [details ->]
      end;
      rewrite <- !app_assoc; eauto.
Qed.

Lemma all_passed_iff (modules : list string) :
  Forall (fun r => Passed r = true) (results_from world 0 modules)
  ↔ every_command_succeeded world modules.
Proof.
  rewrite Forall_lookup. unfold every_command_succeeded. split.
  - intros H k module Hk.
    apply (H k (runModuleTests world k module)).
    apply results_from_lookup. eauto.
  - intros H k r Hr. apply results_from_lookup in Hr as (module & Hk & ->).
    apply (H k module Hk).
Qed.

Lemma not_all_passed_iff (modules : list string) :
  ¬ Forall (fun r => Passed r = true) (results_from world 0 modules)
  ↔ some_command_failed world modules.
Proof.
  rewrite <- Exists_Forall_neg
    by (intros r; destruct (Passed r); [left; reflexivity | right; discriminate]).
  rewrite Exists_exists. unfold some_command_failed. split.
  - intros (r & Hin & Hr).
    apply list_elem_of_lookup in Hin as [k Hk].
    apply results_from_lookup in Hk as (module & Hk & ->).
    exists k, module. split; [exact Hk|].
    simpl in Hr. now destruct (err_is_nil _).
  - intros (k & module & Hk & Hfail).
    exists (runModuleTests world k module). split.
    + apply list_elem_of_lookup. exists k.
      apply results_from_lookup. eauto.
    + simpl. rewrite Hfail. discriminate.
Qed.

(** [main] over any list of modules. *)
Lemma main_on_spec (modules : list string) :
  ∃ (details : list line) (total : Z),
    main_on world modules =
      if count_passed (results_from world 0 modules) =? Z.of_nat (length modules)
      then
        (Banner :: flat_map report (results_from world 0 modules) ++ details
           ++ [AllTestsPassed; FullyFunctional; ProductionReady; FullCoverage;
               ReadyForDeployment; TotalTime total], 0)
      else
        (Banner :: flat_map report (results_from world 0 modules) ++ details
           ++ [ModulesFailed
                 (Z.of_nat (length modules)
                  - count_passed (results_from world 0 modules))], 1).
Proof.
  unfold main_on. rewrite main_run_loop_spec. cbn [printed results passedTests].
  rewrite Z.add_0_l.
  match goal with
  | |- context [main_failed_details ?rs 0 ?out] =>
      destruct (main_failed_details_extends rs 0 out) as [details ->]
  end.
  set (rs := results_from world 0 modules).
  exists ([SummaryHeader; TotalModules (Z.of_nat (length modules));
           PassedCount (count_passed rs);
           FailedCount (Z.of_nat (length modules) - count_passed rs);
           SuccessRate (count_passed rs) (Z.of_nat (length modules))]
          ++ details),
         (fold_left (fun total result => add_int64 total (Duration result))
            rs 0).
  destruct (_ =? _); cbn [app]; rewrite <- !app_assoc; reflexivity.
Qed.

(** C7. [main] prints, for every module in turn, its pass or fail line
    (between the "Running tests for" line and the dashes); the process
    exits with status 1 if and only if the test command of at least one
    module fails, and when every command succeeds [main] ends its output
    with the success summary and returns, status 0. *)
Theorem main_exit_status :
  let rs := results_from world 0 main_modules in
  map Module_ rs = main_modules
  ∧ (∃ later : list line,
       (main world).1 = Banner :: flat_map report rs ++ later)
  ∧ ((main world).2 = 1 ↔ some_command_failed world main_modules)
  ∧ ((main world).2 = 0 ↔ every_command_succeeded world main_modules)
  ∧ (every_command_succeeded world main_modules →
       ∃ (earlier : list line) (total : Z),
         (main world).1 =
           earlier ++ [AllTestsPassed; FullyFunctional; ProductionReady;
                       FullCoverage; ReadyForDeployment; TotalTime total]).
Proof.
  intros rs. unfold main.
  destruct (main_on_spec main_modules) as (details & total & Hmain).
  fold rs in Hmain. rewrite Hmain.
  pose proof (count_passed_all rs) as Hall.
  unfold rs in Hall at 2. rewrite results_from_length in Hall.
  pose proof (all_passed_iff main_modules) as Hsucc. fold rs in Hsucc.
  pose proof (not_all_passed_iff main_modules) as Hfail. fold rs in Hfail.
  split; [apply results_from_modules|].
  destruct (Z.eqb_spec (count_passed rs) (Z.of_nat (length main_modules)))
    as [Heq|Hne]; cbn [fst snd].
  - assert (Hs : every_command_succeeded world main_modules)
      by (apply Hsucc, Hall, Heq).
    split; [eauto|]. split; [|split].
    + split; [discriminate|]. intros Hf. apply Hfail in Hf.
      exfalso. apply Hf, Hsucc, Hs.
    + split; [intros _; exact Hs | reflexivity].
    + intros _. exists (Banner :: flat_map report rs ++ details), total.
      rewrite app_assoc. reflexivity.
  - assert (Hf : some_command_failed world main_modules).
    { apply Hfail. intros Hp. apply Hne, Hall, Hp. }
    split; [eauto|]. split; [|split].
    + split; [intros _; exact Hf | reflexivity].
    + split; [discriminate|]. intros Hs. exfalso.
      apply Hfail in Hf. apply Hf, Hsucc, Hs.
    + intros Hs. exfalso. apply Hfail in Hf. apply Hf, Hsucc, Hs.
Qed.

End Runner_main.

Lemma main_exit_status_witness : (TestRunner.main quiet_world).2 = 0.
Proof.
  apply (main_exit_status quiet_world). intros k module _. reflexivity.
Defined.

(** ** The parallel test runner: what every execution preserves *)

Section Runner_parallel.
Import TestRunner.

Variable world : nat → list string → CommandRun.
Variable modules : list string.

Lemma par_invariant_init : par_invariant world modules (par_init modules).
Proof.
  constructor; simpl; try lia.
  - apply length_replicate.
  - rewrite take_0. reflexivity.
Qed.

Lemma par_invariant_step (s s' : par_state) :
  par_invariant world modules s → par_step world modules s s' →
  par_invariant world modules s'.
Proof.
  intros [Hs Hr Hlen Hperm] Hstep.
  destruct Hstep as [s module Hmod | s before after k mod_ Hgo Hroom
                    | s r queue Hall Hi Hchan];
    constructor; cbn [started received par_results resultsChan goroutines];
    try assumption.
  - apply lookup_lt_Some in Hmod. lia.
  - assert (Hk : results_from world 0 modules !! started s
                   = Some (runModuleTests world (started s) module))
      by (apply results_from_lookup; eauto).
    rewrite (take_S_r _ _ _ Hk), map_app, !app_assoc.
    apply Permutation_app; [|reflexivity].
    rewrite <- !app_assoc. exact Hperm.
  - rewrite <- Hperm, Hgo, !map_app. cbn [map].
    apply Permutation_app_head.
    rewrite <- app_assoc. apply Permutation_app_head.
    cbn [app]. rewrite <- Permutation_middle. reflexivity.
  - rewrite length_insert. exact Hlen.
  - rewrite <- Hperm, Hchan.
    assert (Hget : <[received s := r]> (par_results s) !! received s = Some r)
      by (apply list_lookup_insert_eq; lia).
    rewrite (take_S_r _ _ _ Hget), take_insert_ge by lia.
    rewrite <- app_assoc. reflexivity.
Qed.

Lemma par_invariant_reachable (s : par_state) :
  rtc (par_step world modules) (par_init modules) s →
  par_invariant world modules s.
Proof.
  revert s. apply rtc_ind_r; [apply par_invariant_init|].
  intros y z _ Hstep IH. eapply par_invariant_step; eauto.
Qed.

(** When both loops have ended nothing is left in the channel or to be
    sent, and the slice holds the sequential results in some order. *)
Lemma par_invariant_returns (s : par_state) (rs : list TestResult) :
  par_invariant world modules s → par_returns modules s rs →
  rs ≡ₚ results_from world 0 modules.
Proof.
  intros [Hs Hr Hlen Hperm] (Hstarted & Hreceived & ->).
  rewrite Hstarted, Hreceived in Hperm.
  rewrite <- Hlen, firstn_all in Hperm.
  rewrite Hlen, <- (results_from_length world 0 modules), firstn_all in Hperm.
  pose proof (Permutation_length Hperm) as Hn.
  rewrite !length_app, length_map, Hlen, results_from_length in Hn.
  destruct (resultsChan s); [|simpl in Hn; lia].
  destruct (goroutines s); [|simpl in Hn; lia].
  simpl in Hperm. rewrite app_nil_r in Hperm. exact Hperm.
Qed.

End Runner_parallel.

(** ** The parallel test runner: progress and the returned slice *)

Section Runner_parallel_progress.
Import TestRunner.

Variable world : nat → list string → CommandRun.
Variable modules : list string.

Lemma par_step_steps_left (s s' : par_state) :
  par_step world modules s s' →
  steps_left modules s = S (steps_left modules s').
Proof.
  intros [s0 module Hmod | s0 before after k mod_ Hgo Hroom
         | s0 r queue Hall Hi Hchan];
    unfold steps_left; cbn [started goroutines resultsChan].
  - apply lookup_lt_Some in Hmod. rewrite length_app. simpl. lia.
  - rewrite Hgo, !length_app. simpl. lia.
  - rewrite Hchan. simpl. lia.
Qed.

(** No deadlock: a state of an execution in which the function has not
    returned can take a step. *)
Lemma par_progress (s : par_state) :
  par_invariant world modules s →
  (∃ rs, par_returns modules s rs) ∨ (∃ s', par_step world modules s s').
Proof.
  intros [Hs Hr Hlen Hperm].
  destruct (decide (started s = length modules)) as [Hall|Hmore].
  - destruct (decide (received s = length modules)) as [Hdone|Hwait].
    + left. exists (par_results s). repeat split; assumption.
    + right. apply Permutation_length in Hperm.
      rewrite !length_app, length_map, !length_take,
        results_from_length, Hlen in Hperm.
      destruct (resultsChan s) as [|r queue] eqn:Hchan.
      * destruct (goroutines s) as [|[k mod_] after] eqn:Hgo;
          [simpl in Hperm; lia|].
        eexists. apply (step_send world modules s [] after k mod_);
          [exact Hgo | rewrite Hchan; simpl; lia].
      * eexists. apply (step_receive world modules s r queue);
          [exact Hall | lia | exact Hchan].
  - right. destruct (modules !! started s) as [module|] eqn:Hmod.
    + eexists. apply (step_go world modules s module Hmod).
    + apply lookup_ge_None in Hmod. lia.
Qed.

(** Whatever the scheduler has done so far, the execution can be completed
    and the function returns. *)
Lemma par_can_return (n : nat) (s : par_state) :
  steps_left modules s = n →
  par_invariant world modules s →
  ∃ s' rs, rtc (par_step world modules) s s' ∧ par_returns modules s' rs.
Proof.
  revert s; induction n as [|n IH]; intros s Hn Hinv.
  - destruct (par_progress s Hinv) as [[rs Hret]|[s' Hstep]].
    + exists s, rs. split; [apply rtc_refl | exact Hret].
    + apply par_step_steps_left in Hstep. lia.
  - destruct (par_progress s Hinv) as [[rs Hret]|[s' Hstep]].
    + exists s, rs. split; [apply rtc_refl | exact Hret].
    + destruct (IH s') as (s'' & rs & Hrun & Hret).
      * apply par_step_steps_left in Hstep. lia.
      * eapply par_invariant_step; eauto.
      * exists s'', rs. split; [eapply rtc_l; eauto | exact Hret].
Qed.

(** Every execution is finite: it takes at most three steps per module. *)
Lemma par_steps_bounded (k : nat) (s s' : par_state) :
  nsteps (par_step world modules) k s s' →
  steps_left modules s = (k + steps_left modules s')%nat.
Proof.
  induction 1 as [|k x y z Hstep _ IH]; [reflexivity|].
  apply par_step_steps_left in Hstep. lia.
Qed.

(** C8. [runParallelTests] returns the same collection of results as
    [runSequentialTests], given the same outcomes of the modules' commands:
    whatever the interleaving of the goroutines, a slice it returns is a
    permutation of the sequential results; no interleaving blocks it (every
    execution can be completed, and none takes more than three steps per
    module). *)
Theorem runParallelTests_permutation :
  (∀ rs : list TestResult,
     runParallelTests world modules rs →
     rs ≡ₚ runSequentialTests world modules)
  ∧ (∀ s : par_state,
       rtc (par_step world modules) (par_init modules) s →
       ∃ s' rs,
         rtc (par_step world modules) s s' ∧ par_returns modules s' rs)
  ∧ (∀ (k : nat) (s : par_state),
       nsteps (par_step world modules) k (par_init modules) s →
       (k ≤ 3 * length modules)%nat).
Proof.
  split; [|split].
  - intros rs (s & Hrun & Hret).
    unfold runSequentialTests. rewrite runSequentialTests_loop_spec.
    eapply par_invariant_returns; [|exact Hret].
    apply par_invariant_reachable, Hrun.
  - intros s Hrun. eapply par_can_return; [reflexivity|].
    apply par_invariant_reachable, Hrun.
  - intros k s Hrun. apply par_steps_bounded in Hrun.
    unfold steps_left at 1 in Hrun. simpl in Hrun. lia.
Qed.

End Runner_parallel_progress.

Lemma runParallelTests_permutation_witness :
  ∃ rs : list TestRunner.TestResult,
    TestRunner.runParallelTests quiet_world ["probability"; "visualization"] rs
    ∧ rs ≡ₚ TestRunner.runSequentialTests quiet_world
              ["probability"; "visualization"].
Proof.
  destruct (runParallelTests_permutation quiet_world
              ["probability"; "visualization"]) as (Hperm & Hreturn & _).
  destruct (Hreturn (TestRunner.par_init ["probability"; "visualization"]))
    as (s & rs & Hrun & Hret); [apply rtc_refl|].
  exists rs. split; [exists s; split; assumption|].
  apply Hperm. exists s. split; assumption.
Defined.

(** ** Worked inputs *)

Section Worked_inputs.
Import ComprehensiveVerify.

(** The check of comprehensive_verify.go's own test: [0.7, 0.3] is accepted
    and read back. *)
Example SetCPT_accepts_test_input :
  SetCPT TestNode "" [0.7%float; 0.3%float]
    = (store_CPT TestNode "" [0.7%float; 0.3%float], nil_error).
Proof. reflexivity. Qed.

(** The script's rejection test: [0.5, 0.3] sums to 0.8. *)
Example SetCPT_rejects_test_input :
  SimpleVerification.SetCPT TestNode "invalid" [0.5%float; 0.3%float]
    = (TestNode, Errorf "probabilities must sum to 1").
Proof. reflexivity. Qed.

(** A NaN entry compares neither below 0 nor above 1 and makes the sum
    NaN, which does not compare above 1e-6 either: the list is stored. *)
Example SetCPT_nan_entry :
  SetCPT TestNode "" [nan; 0.5%float]
    = (store_CPT TestNode "" [nan; 0.5%float], nil_error).
Proof. reflexivity. Qed.

(** With the logarithm of 1/4 that binary64 gives, the entropy of the
    uniform distribution over four outcomes is above 1. *)
Example Entropy_uniform_four (math_Log : float → float) :
  math_Log 0.25%float = (-1.3862943611198906)%float →
  (1 <? Entropy math_Log
          (NewCategorical [0.25%float; 0.25%float; 0.25%float; 0.25%float]))%float
    = true.
Proof.
  intros Hlog. unfold Entropy, Entropy_step. cbn [fold_left Probs NewCategorical].
  change (0 <? 0.25)%float with true. cbv iota.
  rewrite Hlog. reflexivity.
Qed.

(** With two modules the goroutine of the second may send first: the
    slice returned is then the sequential one reversed. *)
Example runParallelTests_other_order
  (world : nat → list string → TestRunner.CommandRun) :
  TestRunner.runParallelTests world ["probability"; "visualization"]
    (rev (TestRunner.runSequentialTests world ["probability"; "visualization"])).
Proof.
  eexists. split.
  - eapply rtc_l; [apply TestRunner.step_go; reflexivity|]. cbn.
    eapply rtc_l; [apply TestRunner.step_go; reflexivity|]. cbn.
    eapply rtc_l;
      [apply (TestRunner.step_send _ _ _ [(0%nat, "probability")] []
                1%nat "visualization"); [reflexivity | cbn; lia]|]. cbn.
    eapply rtc_l;
      [apply (TestRunner.step_send _ _ _ [] [] 0%nat "probability");
         [reflexivity | cbn; lia]|]. cbn.
    eapply rtc_l;
      [eapply TestRunner.step_receive; [reflexivity | cbn; lia | reflexivity]|].
    cbn.
    eapply rtc_l;
      [eapply TestRunner.step_receive; [reflexivity | cbn; lia | reflexivity]|].
    cbn. apply rtc_refl.
  - repeat split.
Qed.

End Worked_inputs.

(** * Further properties of the programs *)

(** ** Reading a CPT back: [GetProbability] *)

Section GetProbability_facts.
Import ComprehensiveVerify.

Lemma first_index_None (state : string) (states : list string) :
  first_index state states = None ↔ state ∉ states.
Proof.
  induction states as [|s rest IH]; simpl.
  - split; [intros _; apply not_elem_of_nil | reflexivity].
  - rewrite not_elem_of_cons. destruct (decide (s = state)) as [->|Hne].
    + rewrite bool_decide_eq_true_2 by reflexivity.
      split; [discriminate | intros [H _]; congruence].
    + rewrite bool_decide_eq_false_2 by exact Hne.
      destruct (first_index state rest) as [k|]; simpl.
      * split; [discriminate|]. intros [_ H]. apply IH in H. discriminate.
      * split; [intros _|reflexivity]. split; [congruence | now apply IH].
Qed.

Lemma first_index_Some (state : string) (states : list string) (k : nat) :
  first_index state states = Some k →
  states !! k = Some state ∧ (k < length states)%nat.
Proof.
  revert k; induction states as [|s rest IH]; intros k; simpl; [discriminate|].
  destruct (decide (s = state)) as [->|Hne].
  - rewrite bool_decide_eq_true_2 by reflexivity. intros [= <-].
    split; [reflexivity | lia].
  - rewrite bool_decide_eq_false_2 by exact Hne.
    destruct (first_index state rest) as [k'|]; simpl; [|discriminate].
    intros [= <-]. destruct (IH k' eq_refl) as [Hk Hlt].
    split; [exact Hk | lia].
Qed.

(** The loop returns the entry at the first position of [state], counted
    from the loop's starting index, and 0 when [state] is not a state. *)
Lemma GetProbability_loop_spec (i : nat) (states : list string)
  (state : string) (probabilities : list Probability) :
  GetProbability_loop i states state probabilities =
    match first_index state states with
    | Some k => probabilities !! (i + k)%nat
    | None => Some 0%float
    end.
Proof.
  revert i; induction states as [|s rest IH]; intros i; simpl; [reflexivity|].
  destruct (bool_decide (s = state)).
  - now rewrite Nat.add_0_r.
  - rewrite IH. destruct (first_index state rest) as [k|]; simpl;
      [|reflexivity].
    f_equal. lia.
Qed.

(** X1. [GetProbability] answers 0 when no row is stored under
    [parentStates], and when a row is stored but [state] is not one of the
    node's states; in neither case does it index the row. *)
Theorem GetProbability_unknown (n : Node) (state parentStates : string) :
  (CPT n !! parentStates = None →
     GetProbability n state parentStates = Some 0%float)
  ∧ (state ∉ States n → GetProbability n state parentStates = Some 0%float).
Proof.
  unfold GetProbability. split.
  - intros ->. reflexivity.
  - intros Hstate. destruct (CPT n !! parentStates) as [row|]; [|reflexivity].
    rewrite GetProbability_loop_spec.
    apply first_index_None in Hstate. now rewrite Hstate.
Qed.

Lemma GetProbability_unknown_witness :
  GetProbability TestNode "true" "missing" = Some 0%float
  ∧ GetProbability (SetCPT TestNode "" [0.7%float; 0.3%float]).1 "maybe" ""
    = Some 0%float.
Proof.
  split.
  - apply (proj1 (GetProbability_unknown TestNode "true" "missing")).
    reflexivity.
  - apply (proj2 (GetProbability_unknown
                    (SetCPT TestNode "" [0.7%float; 0.3%float]).1 "maybe" "")).
    simpl. rewrite !not_elem_of_cons. repeat split; try discriminate.
    apply not_elem_of_nil.
Defined.

(** A call that returns [nil] stored the list, and the list passed every
    check. *)
Lemma SetCPT_accepted (n : Node) (parentStates : string)
  (probabilities : list Probability) :
  is_nil (SetCPT n parentStates probabilities).2 = true →
  (SetCPT n parentStates probabilities).1
    = store_CPT n parentStates probabilities
  ∧ length probabilities = length (States n)
  ∧ Forall (fun p => ¬ outside_unit p) probabilities
  ∧ ¬ sum_off_one probabilities.
Proof.
  unfold SetCPT, sum_off_one, float_sum.
  destruct (Nat.eqb_spec (length probabilities) (length (States n)))
    as [Hlen|Hlen]; simpl; [|discriminate].
  pose proof (SetCPT_loop_spec probabilities 0%float) as Hloop.
  destruct (SetCPT_loop probabilities 0%float) as [e|total].
  - destruct Hloop as [_ He]. simpl. rewrite He. discriminate.
  - destruct Hloop as [Hall ->].
    destruct (1e-6 <? abs (fold_left PrimFloat.add probabilities 0 - 1))%float
      eqn:Hsum; simpl; [discriminate|].
    intros _. repeat split; try assumption. congruence.
Qed.

(** A call that returns an error leaves the node as it was. *)
Lemma SetCPT_rejected (n : Node) (parentStates : string)
  (probabilities : list Probability) :
  is_nil (SetCPT n parentStates probabilities).2 = false →
  (SetCPT n parentStates probabilities).1 = n.
Proof.
  unfold SetCPT. destruct (negb _); [reflexivity|].
  destruct (SetCPT_loop probabilities 0%float) as [e|total]; [reflexivity|].
  destruct (1e-6 <? abs (total - 1))%float; [reflexivity | discriminate].
Qed.

Lemma SetCPT_keeps_Name_States (n : Node) (parentStates : string)
  (probabilities : list Probability) :
  Name (SetCPT n parentStates probabilities).1 = Name n
  ∧ States (SetCPT n parentStates probabilities).1 = States n.
Proof.
  destruct (is_nil (SetCPT n parentStates probabilities).2) eqn:He.
  - apply SetCPT_accepted in He as [-> _]. split; reflexivity.
  - apply SetCPT_rejected in He as ->. split; reflexivity.
Qed.

(** X4. A [SetCPT] call, accepted or rejected, changes nothing under any
    other key: [GetProbability] for a different [parentStates] answers as
    before the call. *)
Theorem SetCPT_other_key (n : Node) (parentStates other state : string)
  (probabilities : list Probability) :
  other ≠ parentStates →
  CPT (SetCPT n parentStates probabilities).1 !! other = CPT n !! other
  ∧ GetProbability (SetCPT n parentStates probabilities).1 state other
    = GetProbability n state other.
Proof.
  intros Hne.
  assert (Hrow : CPT (SetCPT n parentStates probabilities).1 !! other
                 = CPT n !! other).
  { destruct (is_nil (SetCPT n parentStates probabilities).2) eqn:He.
    - apply SetCPT_accepted in He as [-> _]. cbn [CPT store_CPT].
      apply lookup_insert_ne. congruence.
    - apply SetCPT_rejected in He as ->. reflexivity. }
  split; [exact Hrow|].
  unfold GetProbability. rewrite Hrow.
  now rewrite (proj2 (SetCPT_keeps_Name_States n parentStates probabilities)).
Qed.

Lemma SetCPT_other_key_witness :
  GetProbability
    (SetCPT (SetCPT TestNode "" [0.7%float; 0.3%float]).1
       "rain" [0.2%float; 0.8%float]).1 "true" ""
  = GetProbability (SetCPT TestNode "" [0.7%float; 0.3%float]).1 "true" "".
Proof.
  apply (SetCPT_other_key (SetCPT TestNode "" [0.7%float; 0.3%float]).1
           "rain" "" "true" [0.2%float; 0.8%float]).
  discriminate.
Defined.

End GetProbability_facts.

(** ** The node and the slices of its caller *)

Section SharedNode_facts.
Import SharedNode.

Lemma length_elements {A : Type} (element_at : nat → A) (s : slice) :
  length (elements element_at s) = len s.
Proof. unfold elements. now rewrite length_map, length_seq. Qed.

Lemma elements_lookup {A : Type} (element_at : nat → A) (s : slice) (k : nat) :
  (k < len s)%nat →
  elements element_at s !! k = Some (element_at (ptr s + k)%nat).
Proof.
  intros Hk. unfold elements.
  change (map ?f ?l) with (f <$> l).
  now rewrite list_lookup_fmap, lookup_seq_lt.
Qed.

(** An assignment outside a slice leaves its elements as they are. *)
Lemma elements_assign_outside {A : Type} (element_at written : nat → A)
  (s row : slice) (i : Z) (v : A) :
  assign element_at s i v = Some written →
  within row (ptr s + Z.to_nat i)%nat = false →
  elements written row = elements element_at row.
Proof.
  unfold assign, within, elements.
  destruct (_ && _); [|discriminate]. intros [= <-] Hout.
  apply map_ext_in. intros j Hj. apply in_seq in Hj.
  destruct (Nat.eqb_spec (ptr row + j) (ptr s + Z.to_nat i)) as [E|E];
    [|reflexivity].
  rewrite <- E in Hout. apply andb_false_iff in Hout as [H|H].
  - apply Nat.leb_gt in H. lia.
  - apply Nat.ltb_ge in H. lia.
Qed.

(** An assignment to an element of a slice succeeds and is read back
    through every copy of the slice value. *)
Lemma elements_assign_same {A : Type} (element_at : nat → A) (s : slice)
  (k : nat) (v : A) :
  (k < len s)%nat →
  ∃ written : nat → A,
    assign element_at s (Z.of_nat k) v = Some written
    ∧ elements written s !! k = Some v.
Proof.
  intros Hk. unfold assign.
  replace ((0 <=? Z.of_nat k) && (Z.of_nat k <? Z.of_nat (len s))) with true
    by (symmetry; apply andb_true_iff; split;
        [apply Z.leb_le | apply Z.ltb_lt]; lia).
  eexists. split; [reflexivity|].
  rewrite elements_lookup by exact Hk. rewrite Nat2Z.id.
  now rewrite Nat.eqb_refl.
Qed.

(** [SetCPT] on the shared node: [nil] exactly for a slice whose elements
    pass the checks; then the slice is stored. *)
Lemma SetCPT_shared (m : memory) (n : Node) (parentStates : string)
  (probabilities : slice) :
  (is_nil (SetCPT m n parentStates probabilities).2 = true
   ↔ row_checked (len (States n)) (elements (probability_at m) probabilities))
  ∧ (SetCPT m n parentStates probabilities).1
    = (if is_nil (SetCPT m n parentStates probabilities).2
       then {| Name := Name n; States := States n;
               CPT := <[parentStates := probabilities]> (CPT n) |}
       else n).
Proof.
  unfold SetCPT, row_checked. rewrite length_elements.
  destruct (Nat.eqb_spec (len probabilities) (len (States n)))
    as [Hlen|Hlen]; cbn [negb].
  - destruct (SetCPT_loop_and_sum (elements (probability_at m) probabilities) n
                {| Name := Name n; States := States n;
                   CPT := <[parentStates := probabilities]> (CPT n) |})
      as [Hnil Hnode].
    cbv zeta in Hnil, Hnode. split; [|exact Hnode].
    rewrite Hnil. tauto.
  - cbn [fst snd is_nil]. split; [|reflexivity].
    split; [discriminate | tauto].
Qed.

Lemma SetCPT_shared_Name_States (m : memory) (n : Node) (parentStates : string)
  (probabilities : slice) :
  Name (SetCPT m n parentStates probabilities).1 = Name n
  ∧ States (SetCPT m n parentStates probabilities).1 = States n.
Proof.
  rewrite (proj2 (SetCPT_shared m n parentStates probabilities)).
  destruct (is_nil _); split; reflexivity.
Qed.

(** A call of [SetCPT] keeps the rows checked. *)
Lemma rows_checked_SetCPT (m : memory) (n : Node) (parentStates : string)
  (probabilities : slice) :
  rows_checked m n → rows_checked m (SetCPT m n parentStates probabilities).1.
Proof.
  intros Hn.
  destruct (SetCPT_shared m n parentStates probabilities) as [Hnil ->].
  destruct (is_nil (SetCPT m n parentStates probabilities).2); [|exact Hn].
  intros key row. cbn [CPT States].
  destruct (decide (parentStates = key)) as [->|Hne].
  - rewrite lookup_insert_eq. intros [= <-]. now apply Hnil.
  - rewrite lookup_insert_ne by exact Hne. apply Hn.
Qed.

(** A statement that spares the rows keeps them checked, and no statement
    changes the name or the slice of states of the node. *)
Lemma execute_keeps_rows_checked (m m1 : memory) (n n1 : Node)
  (st : statement) (errors : list error) :
  execute m n st = Some (m1, n1, errors) →
  spares_rows n st = true →
  rows_checked m n →
  Name n1 = Name n ∧ States n1 = States n ∧ rows_checked m1 n1.
Proof.
  destruct st as [parentStates probabilities|s i v|s i v]; simpl.
  - pose proof (SetCPT_shared_Name_States m n parentStates probabilities)
      as [Hname Hstates].
    pose proof (rows_checked_SetCPT m n parentStates probabilities) as Hrows.
    destruct (SetCPT m n parentStates probabilities) as [n2 e].
    intros [= <- <- <-] _ Hn. cbn [fst] in *. auto.
  - destruct (assign (probability_at m) s i v) as [written|] eqn:Hassign;
      [|discriminate].
    simpl. intros [= <- <- <-] Hspare Hn.
    split; [reflexivity|]. split; [reflexivity|].
    apply bool_decide_eq_true_1 in Hspare.
    intros key row Hrow. cbn [probability_at].
    rewrite (elements_assign_outside _ _ _ _ _ _ Hassign
               (map_Forall_lookup_1 _ _ _ _ Hspare Hrow)).
    exact (Hn key row Hrow).
  - destruct (assign (string_at m) s i v) as [written|]; [|discriminate].
    simpl. intros [= <- <- <-] _ Hn. auto.
Qed.

Lemma caller_keeps_rows_checked (program : list statement) (m m1 : memory)
  (n n1 : Node) (errors : list error) :
  caller m n program = Some (m1, n1, errors) →
  rows_left_alone m n program = true →
  rows_checked m n →
  Name n1 = Name n ∧ States n1 = States n ∧ rows_checked m1 n1.
Proof.
  revert m n errors; induction program as [|st rest IH];
    intros m n errors; simpl.
  - intros [= <- <- <-] _ Hn. auto.
  - destruct (execute m n st) as [[[m2 n2] es2]|] eqn:Hst; [|discriminate].
    simpl.
    destruct (caller m2 n2 rest) as [[[m3 n3] es3]|] eqn:Hrest; [|discriminate].
    simpl. intros [= <- <- <-] Halone Hn.
    apply andb_true_iff in Halone as [Hspare Halone].
    destruct (execute_keeps_rows_checked _ _ _ _ _ _ Hst Hspare Hn)
      as (Hname & Hstates & Hn2).
    destruct (IH _ _ _ Hrest Halone Hn2) as (Hname3 & Hstates3 & Hn3).
    split; [congruence|]. split; [congruence | exact Hn3].
Qed.

(** On a node whose rows are checked, [GetProbability] never indexes out
    of range, and it answers NaN or a value of [0,1]. *)
Lemma GetProbability_checked (m : memory) (n : Node)
  (state parentStates : string) :
  rows_checked m n →
  ∃ p : Probability,
    GetProbability m n state parentStates = Some p ∧ (p = nan ∨ in_unit p).
Proof.
  intros Hn. unfold GetProbability.
  destruct (CPT n !! parentStates) as [row|] eqn:Hrow;
    [|exists 0%float; split; [reflexivity | right; apply in_unit_zero]].
  destruct (Hn parentStates row Hrow) as (Hlen & Hentries & _).
  rewrite GetProbability_loop_spec.
  destruct (first_index state (elements (string_at m) (States n)))
    as [k|] eqn:Hk;
    [|exists 0%float; split; [reflexivity | right; apply in_unit_zero]].
  apply first_index_Some in Hk as [_ Hlt]. rewrite length_elements in Hlt.
  simpl.
  destruct (elements (probability_at m) row !! k) as [p|] eqn:Hp.
  - exists p. split; [reflexivity|].
    rewrite Forall_forall in Hentries. apply Hentries.
    eapply list_elem_of_lookup_2; exact Hp.
  - apply lookup_ge_None in Hp. lia.
Qed.

(** X2. Round trip over the shared slice: after a [SetCPT] call that
    returned [nil], [GetProbability] for the same [parentStates] and a
    state of the node returns, without panicking, the element of the
    slice at the first position of that state, which is NaN or lies in
    [0,1]. The node holds the caller's slice, not a copy: when the caller
    then assigns any value to that element, [GetProbability] returns the
    value assigned. *)
Theorem SetCPT_GetProbability (m : memory) (n : Node)
  (parentStates state : string) (probabilities : slice) (k : nat) :
  is_nil (SetCPT m n parentStates probabilities).2 = true →
  first_index state (elements (string_at m) (States n)) = Some k →
  (∃ p : Probability,
     elements (probability_at m) probabilities !! k = Some p
     ∧ (p = nan ∨ in_unit p)
     ∧ GetProbability m (SetCPT m n parentStates probabilities).1
         state parentStates = Some p)
  ∧ ∀ v : Probability,
      ∃ written : nat → Probability,
        assign (probability_at m) probabilities (Z.of_nat k) v = Some written
        ∧ GetProbability
            {| probability_at := written; string_at := string_at m |}
            (SetCPT m n parentStates probabilities).1 state parentStates
          = Some v.
Proof.
  intros Hnil Hk.
  destruct (SetCPT_shared m n parentStates probabilities) as [Hchecked Hnode].
  rewrite Hnil in Hnode. rewrite Hnode.
  apply Hchecked in Hnil as (Hlen & Hentries & _).
  rewrite length_elements in Hlen.
  unfold GetProbability. cbn [CPT States probability_at string_at].
  rewrite lookup_insert_eq, GetProbability_loop_spec, Hk. simpl.
  destruct (first_index_Some _ _ _ Hk) as [_ Hlt].
  rewrite length_elements in Hlt.
  split.
  - rewrite elements_lookup by lia. eexists. split; [reflexivity|].
    split; [|reflexivity].
    rewrite Forall_forall in Hentries. apply Hentries.
    eapply list_elem_of_lookup_2. apply elements_lookup. lia.
  - intros v.
    destruct (elements_assign_same (probability_at m) probabilities k v)
      as (written & Hassign & Hread); [lia|].
    exists written. split; [exact Hassign|].
    now rewrite GetProbability_loop_spec, Hk.
Qed.

Lemma SetCPT_GetProbability_witness :
  let m := memory_of [0.7%float; 0.3%float] ["true"; "false"] in
  let row := {| ptr := 0; len := 2 |} in
  let n := NewNode "TestNode" row in
  (∃ p : Probability,
     elements (probability_at m) row !! 0%nat = Some p
     ∧ (p = nan ∨ in_unit p)
     ∧ GetProbability m (SetCPT m n "" row).1 "true" "" = Some p)
  ∧ ∀ v : Probability,
      ∃ written : nat → Probability,
        assign (probability_at m) row (Z.of_nat 0) v = Some written
        ∧ GetProbability
            {| probability_at := written; string_at := string_at m |}
            (SetCPT m n "" row).1 "true" ""
          = Some v.
Proof.
  apply (SetCPT_GetProbability
           (memory_of [0.7%float; 0.3%float] ["true"; "false"])
           (NewNode "TestNode" {| ptr := 0; len := 2 |}) "" "true"
           {| ptr := 0; len := 2 |} 0);
    reflexivity.
Defined.

(** X3. A node made by [NewNode], whatever its caller then does (calls of
    [SetCPT], accepted or rejected, and assignments to elements of slices)
    as long as no assignment goes to an element of a row the node holds:
    the node keeps its name and its slice of states, and every row it
    holds has one element per state, every element NaN or in [0,1], and a
    NaN element or a sum within 1e-6 of 1; so [GetProbability] on it never
    panics and answers NaN or a value of [0,1]. *)
Theorem SetCPT_calls_keep_rows_validated (name : string) (states : slice)
  (m : memory) (program : list statement) (m1 : memory) (n1 : Node)
  (errors : list error) (state parentStates : string) :
  caller m (NewNode name states) program = Some (m1, n1, errors) →
  rows_left_alone m (NewNode name states) program = true →
  Name n1 = name
  ∧ States n1 = states
  ∧ rows_checked m1 n1
  ∧ ∃ p : Probability,
      GetProbability m1 n1 state parentStates = Some p
      ∧ (p = nan ∨ in_unit p).
Proof.
  intros Hrun Halone.
  assert (Hnew : rows_checked m (NewNode name states)).
  { intros key row Hrow. simpl in Hrow. rewrite lookup_empty in Hrow.
    discriminate. }
  destruct (caller_keeps_rows_checked _ _ _ _ _ _ Hrun Halone Hnew)
    as (Hname & Hstates & Hrows).
  split; [exact Hname|]. split; [exact Hstates|]. split; [exact Hrows|].
  apply GetProbability_checked, Hrows.
Qed.

Lemma SetCPT_calls_keep_rows_validated_witness :
  let states := {| ptr := 0; len := 2 |} in
  let first := {| ptr := 0; len := 2 |} in
  let second := {| ptr := 2; len := 2 |} in
  ∃ (m1 : memory) (n1 : Node) (errors : list error),
    caller (memory_of [0.7%float; 0.3%float] ["true"; "false"])
      (NewNode "TestNode" states)
      [call_SetCPT "a" first;
       assign_probability second 0 0.5%float;
       assign_probability second 1 0.3%float;
       call_SetCPT "b" second;
       assign_state states 1 "maybe"]
      = Some (m1, n1, errors)
    ∧ rows_checked m1 n1
    ∧ ∃ p : Probability,
        GetProbability m1 n1 "true" "a" = Some p ∧ (p = nan ∨ in_unit p).
Proof.
  intros states first second.
  destruct (caller (memory_of [0.7%float; 0.3%float] ["true"; "false"])
              (NewNode "TestNode" states)
              [call_SetCPT "a" first;
               assign_probability second 0 0.5%float;
               assign_probability second 1 0.3%float;
               call_SetCPT "b" second;
               assign_state states 1 "maybe"])
    as [[[m1 n1] errors]|] eqn:Hrun; [|vm_compute in Hrun; discriminate].
  exists m1, n1, errors. split; [reflexivity|].
  apply (SetCPT_calls_keep_rows_validated "TestNode" states _ _ m1 n1 errors
           "true" "a" Hrun).
  reflexivity.
Defined.

(** An assignment to a row the node holds does change the row. The caller
    hands over a slice holding 0.7 and 0.3, assigns 0.5 to its first element
    and hands it over again:
    the second call is rejected, and the row stored by the first call now
    holds 0.5 and 0.3, whose sum is 0.8. *)
Example caller_reuses_slice :
  let row := {| ptr := 0; len := 2 |} in
  match caller (memory_of [0.7%float; 0.3%float] ["true"; "false"])
          (NewNode "TestNode" row)
          [call_SetCPT "a" row;
           assign_probability row 0 0.5%float;
           call_SetCPT "b" row] with
  | Some (m1, n1, errors) =>
      errors = [nil_error; Errorf "probabilities must sum to 1"]
      ∧ CPT n1 !! "a" = Some row
      ∧ CPT n1 !! "b" = None
      ∧ elements (probability_at m1) row = [0.5%float; 0.3%float]
      ∧ GetProbability m1 n1 "true" "a" = Some 0.5%float
      ∧ ¬ rows_checked m1 n1
  | None => False
  end.
Proof.
  cbv zeta.
  destruct (caller _ _ _) as [[[m1 n1] errors]|] eqn:Hrun;
    [|vm_compute in Hrun; discriminate].
  vm_compute in Hrun. injection Hrun as <- <- <-.
  repeat (split; [reflexivity|]).
  intros Hrows.
  destruct (Hrows "a" {| ptr := 0; len := 2 |} eq_refl) as (_ & _ & [Hnan|Hsum]).
  - vm_compute in Hnan.
    repeat (apply elem_of_cons in Hnan as [Hnan|Hnan];
            [apply (f_equal is_nan) in Hnan; vm_compute in Hnan; discriminate|]).
    now apply elem_of_nil in Hnan.
  - vm_compute in Hsum. discriminate.
Qed.

End SharedNode_facts.

(** ** Categorical distributions at their edges *)

Section Categorical_edges.
Import ComprehensiveVerify.

Variable math_Log : float → float.

(** X5. [Prob] never indexes out of range: for an outcome below 0 or at
    least [len(c.Probs)] it returns 0 and [LogProb] returns -1e9; for an
    outcome in range [Prob] returns the entry at that index and [LogProb]
    returns -1e9 when that entry equals 0 and its logarithm otherwise.
    [Prob] in the simple verification script returns the same values. *)
Theorem Prob_LogProb_bounds (probs : list Probability) (outcome : Z) :
  (outcome < 0 ∨ Z.of_nat (length probs) ≤ outcome →
     Prob (NewCategorical probs) outcome = 0%float
     ∧ LogProb math_Log (NewCategorical probs) outcome = (-1e9)%float)
  ∧ (0 ≤ outcome < Z.of_nat (length probs) →
     ∃ p : Probability,
       probs !! Z.to_nat outcome = Some p
       ∧ Prob (NewCategorical probs) outcome = p
       ∧ LogProb math_Log (NewCategorical probs) outcome
         = if (p =? 0)%float then (-1e9)%float else math_Log p)
  ∧ SimpleVerification.Prob (SimpleVerification.NewCategorical probs) outcome
    = Prob (NewCategorical probs) outcome.
Proof.
  split; [|split]; [| |reflexivity].
  - intros Hout. assert (Hp : Prob (NewCategorical probs) outcome = 0%float).
    { unfold Prob. cbn [Probs NewCategorical].
      destruct (Z.leb_spec 0 outcome), (Z.ltb_spec outcome (Z.of_nat (length probs)));
        simpl; try reflexivity. lia. }
    split; [exact Hp|]. unfold LogProb. rewrite Hp. reflexivity.
  - intros [Hlow Hhigh].
    destruct (probs !! Z.to_nat outcome) as [p|] eqn:Hp;
      [|apply lookup_ge_None in Hp; lia].
    exists p. split; [reflexivity|].
    assert (Hprob : Prob (NewCategorical probs) outcome = p).
    { unfold Prob. cbn [Probs NewCategorical]. rewrite Hp.
      replace (0 <=? outcome) with true by (symmetry; apply Z.leb_le; lia).
      replace (outcome <? Z.of_nat (length probs)) with true
        by (symmetry; apply Z.ltb_lt; lia).
      reflexivity. }
    split; [exact Hprob|]. unfold LogProb. rewrite Hprob. reflexivity.
Qed.

(** X6. The entropy depends only on the entries strictly greater than 0
    and their order: two distributions with the same such entries have the
    same entropy, whatever zero, negative or NaN entries they hold
    besides; a distribution with no such entry (the empty one, all zeros)
    has entropy 0. *)
Theorem Entropy_positive_entries_only (c1 c2 : Categorical) :
  (positive_entries (Probs c1) = positive_entries (Probs c2) →
     Entropy math_Log c1 = Entropy math_Log c2)
  ∧ (positive_entries (Probs c1) = [] → Entropy math_Log c1 = 0%float).
Proof.
  unfold Entropy. rewrite !Entropy_skips_nonpositive. split.
  - intros ->. reflexivity.
  - intros ->. reflexivity.
Qed.

End Categorical_edges.

Lemma Prob_LogProb_bounds_witness :
  ComprehensiveVerify.Prob
    (ComprehensiveVerify.NewCategorical [0.2%float; 0.3%float; 0.5%float]) 3
  = 0%float
  ∧ ∃ p : Probability,
      [0.2%float; 0.3%float; 0.5%float] !! Z.to_nat 2 = Some p
      ∧ ComprehensiveVerify.Prob
          (ComprehensiveVerify.NewCategorical
             [0.2%float; 0.3%float; 0.5%float]) 2 = p
      ∧ ComprehensiveVerify.LogProb (fun x => x)
          (ComprehensiveVerify.NewCategorical
             [0.2%float; 0.3%float; 0.5%float]) 2
        = if (p =? 0)%float then (-1e9)%float else p.
Proof.
  split.
  - apply (proj1 (Prob_LogProb_bounds (fun x => x)
                    [0.2%float; 0.3%float; 0.5%float] 3)).
    right. simpl. lia.
  - apply (proj1 (proj2 (Prob_LogProb_bounds (fun x => x)
                           [0.2%float; 0.3%float; 0.5%float] 2))).
    simpl. lia.
Defined.

Lemma Entropy_positive_entries_only_witness :
  ComprehensiveVerify.Entropy (fun x => x)
    (ComprehensiveVerify.NewCategorical [0%float; 0.5%float; (-1)%float])
  = ComprehensiveVerify.Entropy (fun x => x)
      (ComprehensiveVerify.NewCategorical [0.5%float; nan])
  ∧ ComprehensiveVerify.Entropy (fun x => x)
      (ComprehensiveVerify.NewCategorical [0%float; 0%float]) = 0%float.
Proof.
  split.
  - apply (proj1 (Entropy_positive_entries_only (fun x => x)
             (ComprehensiveVerify.NewCategorical
                [0%float; 0.5%float; (-1)%float])
             (ComprehensiveVerify.NewCategorical [0.5%float; nan]))).
    reflexivity.
  - apply (proj2 (Entropy_positive_entries_only (fun x => x)
             (ComprehensiveVerify.NewCategorical [0%float; 0%float])
             (ComprehensiveVerify.NewCategorical []))).
    reflexivity.
Defined.

(** ** The agent's beliefs *)

Section Agent_beliefs.
Import ComprehensiveVerify.

Lemma copy_slice_same_length {A : Type} (dst src : list A) :
  length src = length dst → copy_slice dst src = src.
Proof.
  intros Hlen. unfold copy_slice.
  rewrite take_ge, drop_ge by lia. apply app_nil_r.
Qed.

Lemma Perceive_accepts (aia : ActiveInferenceAgent)
  (observation : list Probability) :
  length observation = length (CurrentBeliefs aia) →
  Perceive aia observation =
    ({| CognitiveModel := CognitiveModel aia;
        CurrentBeliefs := observation |}, nil_error).
Proof.
  intros Hlen. unfold Perceive.
  replace (length observation =? length (CurrentBeliefs aia))%nat with true
    by (symmetry; apply Nat.eqb_eq; exact Hlen).
  simpl. now rewrite copy_slice_same_length by exact Hlen.
Qed.

Lemma Perceive_rejects (aia : ActiveInferenceAgent)
  (observation : list Probability) :
  length observation ≠ length (CurrentBeliefs aia) →
  Perceive aia observation = (aia, Errorf "observation length mismatch").
Proof.
  intros Hlen. unfold Perceive.
  now replace (length observation =? length (CurrentBeliefs aia))%nat
    with false by (symmetry; apply Nat.eqb_neq; exact Hlen).
Qed.

(** X7. [Perceive] accepts an observation exactly when it has as many
    entries as the agent's beliefs: then the beliefs become a copy of the
    observation and [nil] is returned; otherwise the agent is unchanged
    and the length-mismatch error is returned. Either way the number of
    beliefs is unchanged. *)
Theorem Perceive_length_check (aia : ActiveInferenceAgent)
  (observation : list Probability) :
  (length observation = length (CurrentBeliefs aia) →
     Perceive aia observation =
       ({| CognitiveModel := CognitiveModel aia;
           CurrentBeliefs := observation |}, nil_error))
  ∧ (length observation ≠ length (CurrentBeliefs aia) →
     Perceive aia observation = (aia, Errorf "observation length mismatch"))
  ∧ length (CurrentBeliefs (Perceive aia observation).1)
    = length (CurrentBeliefs aia).
Proof.
  split; [apply Perceive_accepts|]. split; [apply Perceive_rejects|].
  destruct (decide (length observation = length (CurrentBeliefs aia)))
    as [Hlen|Hlen].
  - rewrite Perceive_accepts by exact Hlen. exact Hlen.
  - rewrite Perceive_rejects by exact Hlen. reflexivity.
Qed.

Lemma Perceive_length_check_witness :
  Perceive NewActiveInferenceAgent [0.6%float; 0.4%float; 0.7%float; 0.3%float]
    = ({| CognitiveModel := None;
          CurrentBeliefs := [0.6%float; 0.4%float; 0.7%float; 0.3%float] |},
       nil_error)
  ∧ Perceive NewActiveInferenceAgent [0.6%float; 0.4%float]
    = (NewActiveInferenceAgent, Errorf "observation length mismatch").
Proof.
  split.
  - apply (proj1 (Perceive_length_check NewActiveInferenceAgent
                    [0.6%float; 0.4%float; 0.7%float; 0.3%float])).
    reflexivity.
  - apply (proj1 (proj2 (Perceive_length_check NewActiveInferenceAgent
                           [0.6%float; 0.4%float]))).
    simpl. lia.
Defined.

Lemma Perceive_all_snoc (aia : ActiveInferenceAgent)
  (observations : list (list Probability)) (observation : list Probability) :
  Perceive_all aia (observations ++ [observation]) =
    ((Perceive (Perceive_all aia observations).1 observation).1,
     (Perceive_all aia observations).2
       ++ [(Perceive (Perceive_all aia observations).1 observation).2]).
Proof.
  revert aia; induction observations as [|o rest IH]; intros aia; simpl.
  - destruct (Perceive aia observation); reflexivity.
  - destruct (Perceive aia o) as [aia1 e]. rewrite IH.
    destruct (Perceive_all aia1 rest) as [aia2 es]. reflexivity.
Qed.

Lemma last_filter_snoc {A : Type} (f : A → bool) (l : list A) (x : A) :
  last (List.filter f (l ++ [x])) =
    if f x then Some x else last (List.filter f l).
Proof.
  rewrite List.filter_app. simpl. destruct (f x).
  - apply last_snoc.
  - now rewrite app_nil_r.
Qed.

(** X8. An agent made by [NewActiveInferenceAgent] always holds four
    beliefs: after any sequence of [Perceive] calls they are the last
    observation of length four that was offered (four zeros when there was
    none), and the calls that returned [nil] are exactly those offering
    four entries. *)
Theorem Perceive_keeps_last_accepted (observations : list (list Probability)) :
  CurrentBeliefs (Perceive_all NewActiveInferenceAgent observations).1
    = last_accepted observations
  ∧ length (CurrentBeliefs (Perceive_all NewActiveInferenceAgent observations).1)
    = 4%nat
  ∧ map is_nil (Perceive_all NewActiveInferenceAgent observations).2
    = map (fun o => (length o =? 4)%nat) observations.
Proof.
  induction observations as [|o observations IH] using rev_ind.
  - repeat split.
  - destruct IH as (Hlast & Hlen & Herrs).
    rewrite Perceive_all_snoc. cbn [fst snd].
    rewrite !map_app, Herrs. unfold last_accepted in *.
    rewrite last_filter_snoc. cbn [map].
    pose proof (Perceive_accepts
                  (Perceive_all NewActiveInferenceAgent observations).1 o)
      as Hok.
    pose proof (Perceive_rejects
                  (Perceive_all NewActiveInferenceAgent observations).1 o)
      as Hbad.
    rewrite Hlen in Hok, Hbad.
    destruct (Nat.eqb_spec (length o) 4) as [Ho|Ho].
    + rewrite (Hok Ho). simpl. repeat split; assumption.
    + rewrite (Hbad Ho). simpl. repeat split; assumption.
Qed.

End Agent_beliefs.

(** ** The generative model *)

Section GenerativeModel_shape.
Import ComprehensiveVerify.
Import FreeEnergy.

(** Writing at the first position that still holds the zero value. *)
Lemma insert_first_unwritten {A : Type} (written : list A) (x zero : A)
  (m : nat) :
  <[length written := x]> (written ++ replicate (S m) zero)
    = (written ++ [x]) ++ replicate m zero.
Proof.
  rewrite <- (Nat.add_0_r (length written)), insert_app_r. simpl.
  now rewrite <- app_assoc.
Qed.

Lemma map_seq_snoc {A : Type} (g : nat → A) (i : nat) :
  map g (seq 0 (S i)) = map g (seq 0 i) ++ [g i].
Proof. rewrite seq_S, map_app. reflexivity. Qed.

Lemma map_const_seq {A : Type} (x : A) (n : nat) :
  map (fun _ => x) (seq 0 n) = replicate n x.
Proof.
  induction n as [|n IH]; [reflexivity|].
  rewrite map_seq_snoc, IH, replicate_S_end. reflexivity.
Qed.

Lemma fill_priors_spec (u zero : Probability) (m i : nat) :
  fill_priors (seq i m) u
    (map (fun _ => u) (seq 0 i) ++ replicate m zero)
    (map (fun _ => u) (seq 0 i) ++ replicate m zero)
  = (map (fun _ => u) (seq 0 (i + m)), map (fun _ => u) (seq 0 (i + m))).
Proof.
  revert i; induction m as [|m IH]; intros i; simpl.
  - now rewrite Nat.add_0_r, !app_nil_r.
  - pose proof (insert_first_unwritten (map (fun _ => u) (seq 0 i)) u zero m)
      as Hins.
    rewrite length_map, length_seq in Hins. simpl in Hins.
    unfold Probability in *. rewrite Hins.
    rewrite <- (map_seq_snoc (fun _ => u) i), IH.
    now replace (S i + m)%nat with (i + S m)%nat by lia.
Qed.

Lemma fill_row_spec (statesPerLevel : Z) (j m i : nat) :
  fill_row (seq i m) statesPerLevel j
    (map (likelihood_entry statesPerLevel j) (seq 0 i) ++ replicate m 0%float)
  = map (likelihood_entry statesPerLevel j) (seq 0 (i + m)).
Proof.
  revert i; induction m as [|m IH]; intros i; cbn [fill_row seq replicate].
  - now rewrite Nat.add_0_r, app_nil_r.
  - pose proof (insert_first_unwritten
                  (map (likelihood_entry statesPerLevel j) (seq 0 i))
                  (likelihood_entry statesPerLevel j i) 0%float m) as Hins.
    rewrite length_map, length_seq in Hins. cbn [replicate] in Hins.
    unfold Probability in *. rewrite Hins, <- map_seq_snoc, IH.
    now replace (S i + m)%nat with (i + S m)%nat by lia.
Qed.

Lemma make_slice_nonneg {A : Type} (n : Z) (zero : A) :
  0 ≤ n → make_slice n zero = Some (replicate (Z.to_nat n) zero).
Proof.
  intros Hn. unfold make_slice.
  now replace (n <? 0) with false by (symmetry; apply Z.ltb_ge; lia).
Qed.

Lemma make_slice_negative {A : Type} (n : Z) (zero : A) :
  n < 0 → make_slice n zero = None.
Proof.
  intros Hn. unfold make_slice.
  now replace (n <? 0) with true by (symmetry; apply Z.ltb_lt; lia).
Qed.

Lemma fill_matrix_spec (statesPerLevel : Z) (m i : nat) :
  0 ≤ statesPerLevel →
  fill_matrix (seq i m) statesPerLevel
    (map (likelihood_row statesPerLevel) (seq 0 i) ++ replicate m [])
  = Some (map (likelihood_row statesPerLevel) (seq 0 (i + m))).
Proof.
  intros Hn. revert i; induction m as [|m IH]; intros i; simpl.
  - now rewrite Nat.add_0_r, app_nil_r.
  - rewrite make_slice_nonneg by exact Hn. simpl.
    rewrite length_replicate.
    pose proof (fill_row_spec statesPerLevel i (Z.to_nat statesPerLevel) 0)
      as Hrow.
    simpl in Hrow. unfold Probability in *. rewrite Hrow.
    change (map (likelihood_entry statesPerLevel i)
              (seq 0 (Z.to_nat statesPerLevel)))
      with (likelihood_row statesPerLevel i).
    pose proof (insert_first_unwritten
                  (map (likelihood_row statesPerLevel) (seq 0 i))
                  (likelihood_row statesPerLevel i) [] m) as Hins.
    rewrite length_map, length_seq in Hins. simpl in Hins.
    unfold Probability in *. rewrite Hins.
    rewrite <- map_seq_snoc, IH.
    now replace (S i + m)%nat with (i + S m)%nat by lia.
Qed.

Lemma new_level_spec (i : nat) (numLevels statesPerLevel : Z) :
  0 ≤ statesPerLevel →
  new_level i numLevels statesPerLevel
    = Some (expected_level i numLevels statesPerLevel).
Proof.
  intros Hn. unfold new_level, expected_level.
  rewrite !make_slice_nonneg by exact Hn. simpl.
  rewrite length_replicate.
  pose proof (fill_priors_spec (1 / float64_of_int statesPerLevel)%float
                0%float (Z.to_nat statesPerLevel) 0) as Hpriors.
  simpl in Hpriors. unfold Probability in *. rewrite Hpriors, map_const_seq.
  destruct (Z.of_nat i <? numLevels - 1); simpl; [|reflexivity].
  rewrite length_replicate.
  pose proof (fill_matrix_spec statesPerLevel (Z.to_nat statesPerLevel) 0 Hn)
    as Hmatrix.
  simpl in Hmatrix. unfold Probability in *. rewrite Hmatrix. reflexivity.
Qed.

Lemma fill_levels_spec (numLevels statesPerLevel : Z) (m i : nat) :
  0 ≤ statesPerLevel →
  fill_levels (seq i m) numLevels statesPerLevel
    (map (fun k => Some (expected_level k numLevels statesPerLevel)) (seq 0 i)
       ++ replicate m None)
    (map (fun _ => 1%float) (seq 0 i) ++ replicate m 0%float)
  = Some (map (fun k => Some (expected_level k numLevels statesPerLevel))
            (seq 0 (i + m)),
          map (fun _ => 1%float) (seq 0 (i + m))).
Proof.
  intros Hn. revert i; induction m as [|m IH]; intros i; simpl.
  - now rewrite Nat.add_0_r, !app_nil_r.
  - rewrite new_level_spec by exact Hn. simpl.
    pose proof (insert_first_unwritten
                  (map (fun k => Some (expected_level k numLevels statesPerLevel))
                     (seq 0 i))
                  (Some (expected_level i numLevels statesPerLevel)) None m)
      as Hlevels.
    pose proof (insert_first_unwritten (map (fun _ => 1%float) (seq 0 i))
                  1%float 0%float m) as Hprecisions.
    rewrite length_map, length_seq in Hlevels, Hprecisions.
    simpl in Hlevels, Hprecisions. unfold Probability in *.
    rewrite Hlevels, Hprecisions.
    rewrite <- (map_seq_snoc
                  (fun k => Some (expected_level k numLevels statesPerLevel)) i),
      <- (map_seq_snoc (fun _ => 1%float) i), IH.
    now replace (S i + m)%nat with (i + S m)%nat by lia.
Qed.

(** With no negative argument the model is the list of the expected
    levels, all precisions 1 and learning rate 0.01. *)
Lemma NewGenerativeModel_nonneg (numLevels statesPerLevel : Z) :
  0 ≤ numLevels → 0 ≤ statesPerLevel →
  NewGenerativeModel numLevels statesPerLevel =
    Some {| Levels :=
              map (fun i => Some (expected_level i numLevels statesPerLevel))
                (seq 0 (Z.to_nat numLevels));
            Precisions := replicate (Z.to_nat numLevels) 1%float;
            LearningRate := 0.01%float |}.
Proof.
  intros Hlevels Hstates. unfold NewGenerativeModel.
  rewrite !make_slice_nonneg by exact Hlevels. simpl.
  rewrite length_replicate.
  pose proof (fill_levels_spec numLevels statesPerLevel
                (Z.to_nat numLevels) 0 Hstates) as Hfill.
  simpl in Hfill. unfold Probability in *. rewrite Hfill. simpl.
  now rewrite map_const_seq.
Qed.

(** X9. [NewGenerativeModel] panics exactly when [numLevels] is negative,
    or [numLevels] is positive and [statesPerLevel] negative (a [make]
    with a negative length); with [numLevels = 0] it returns the model
    without levels whatever [statesPerLevel] is. *)
Theorem NewGenerativeModel_panics (numLevels statesPerLevel : Z) :
  (NewGenerativeModel numLevels statesPerLevel = None
   ↔ numLevels < 0 ∨ (0 < numLevels ∧ statesPerLevel < 0))
  ∧ NewGenerativeModel 0 statesPerLevel
    = Some {| Levels := []; Precisions := []; LearningRate := 0.01%float |}.
Proof.
  split; [|reflexivity].
  destruct (Z.lt_ge_cases numLevels 0) as [Hneg|Hlevels].
  - unfold NewGenerativeModel. rewrite !make_slice_negative by exact Hneg.
    split; [intros _; left; exact Hneg | reflexivity].
  - destruct (Z.lt_ge_cases statesPerLevel 0) as [Hbad|Hstates].
    + destruct (Z.eq_dec numLevels 0) as [->|Hpos].
      * split; [discriminate | lia].
      * split; [intros _; right; lia|]. intros _.
        unfold NewGenerativeModel.
        rewrite !make_slice_nonneg by exact Hlevels. simpl.
        rewrite length_replicate.
        destruct (Z.to_nat numLevels) as [|n] eqn:Hn; [lia|].
        cbn [seq fill_levels]. unfold new_level.
        rewrite !make_slice_negative by exact Hbad. reflexivity.
    + rewrite NewGenerativeModel_nonneg by assumption.
      split; [discriminate | lia].
Qed.

(** X10. With [numLevels >= 0] and [statesPerLevel >= 0] the model has
    [numLevels] levels, none nil, all precisions 1 and learning rate 0.01.
    Every level has [statesPerLevel] states (all 0), priors and posteriors
    (all [1/statesPerLevel]). Every level but the last has a square
    likelihood matrix with 0.8 on the diagonal and
    [0.2/(statesPerLevel-1)] elsewhere; the last level has none. *)
Theorem NewGenerativeModel_levels (numLevels statesPerLevel : Z) :
  0 ≤ numLevels → 0 ≤ statesPerLevel →
  ∃ model : GenerativeModel,
    NewGenerativeModel numLevels statesPerLevel = Some model
    ∧ length (Levels model) = Z.to_nat numLevels
    ∧ Precisions model = replicate (Z.to_nat numLevels) 1%float
    ∧ LearningRate model = 0.01%float
    ∧ ∀ i : nat,
        (i < Z.to_nat numLevels)%nat →
        ∃ level : ModelLevel,
          Levels model !! i = Some (Some level)
          ∧ States level = replicate (Z.to_nat statesPerLevel) 0%float
          ∧ Priors level
            = replicate (Z.to_nat statesPerLevel)
                (1 / float64_of_int statesPerLevel)%float
          ∧ Posteriors level = Priors level
          ∧ (numLevels - 1 ≤ Z.of_nat i → LikelihoodMatrix level = [])
          ∧ (Z.of_nat i < numLevels - 1 →
             length (LikelihoodMatrix level) = Z.to_nat statesPerLevel
             ∧ ∀ (j k : nat),
                 (j < Z.to_nat statesPerLevel)%nat →
                 (k < Z.to_nat statesPerLevel)%nat →
                 ∃ row : list Probability,
                   LikelihoodMatrix level !! j = Some row
                   ∧ length row = Z.to_nat statesPerLevel
                   ∧ row !! k =
                       Some (if bool_decide (j = k) then 0.8%float
                             else (0.2 / float64_of_int (statesPerLevel - 1))%float)).
Proof.
  intros Hlevels Hstates. eexists.
  split; [apply NewGenerativeModel_nonneg; assumption|]. cbn [Levels Precisions LearningRate].
  split; [now rewrite length_map, length_seq|].
  split; [reflexivity|]. split; [reflexivity|].
  intros i Hi. exists (expected_level i numLevels statesPerLevel).
  split.
  { rewrite list_lookup_fmap, lookup_seq_lt by exact Hi. reflexivity. }
  unfold expected_level. cbn [States Priors Posteriors LikelihoodMatrix].
  split; [reflexivity|]. split; [reflexivity|]. split; [reflexivity|].
  split.
  - intros Hlast.
    now replace (Z.of_nat i <? numLevels - 1) with false
      by (symmetry; apply Z.ltb_ge; lia).
  - intros Hinner.
    replace (Z.of_nat i <? numLevels - 1) with true
      by (symmetry; apply Z.ltb_lt; lia).
    split; [now rewrite length_map, length_seq|].
    intros j k Hj Hk. exists (likelihood_row statesPerLevel j).
    split; [rewrite list_lookup_fmap, lookup_seq_lt by exact Hj; reflexivity|].
    unfold likelihood_row.
    split; [now rewrite length_map, length_seq|].
    rewrite list_lookup_fmap, lookup_seq_lt by exact Hk. reflexivity.
Qed.

End GenerativeModel_shape.

Lemma NewGenerativeModel_levels_witness :
  ∃ model : ComprehensiveVerify.FreeEnergy.GenerativeModel,
    ComprehensiveVerify.FreeEnergy.NewGenerativeModel 2 3 = Some model
    ∧ length (ComprehensiveVerify.FreeEnergy.Levels model) = 2%nat.
Proof.
  destruct (NewGenerativeModel_levels 2 3) as (model & Hmodel & Hlen & _);
    [lia | lia |].
  exists model. split; [exact Hmodel | exact Hlen].
Defined.

(** ** The answer of [Query] as a distribution *)

Section Query_distribution.
Import VerifyExamples.

(** X11. Whatever the network, the query and the evidence, the map [Query]
    returns is either empty or has exactly the keys "yes" and "no", with
    two values in [0,1] whose [float64] sum is exactly 1. *)
Theorem Query_result_is_distribution (ve : VariableElimination)
  (query evidence : gmap string string) :
  Query ve query evidence = ∅
  ∨ ∃ yes no : Probability,
      Query ve query evidence = {["yes" := yes; "no" := no]}
      ∧ dom (Query ve query evidence) = {["yes"; "no"]}
      ∧ in_unit yes ∧ in_unit no
      ∧ (yes + no)%float = 1%float.
Proof.
  unfold Query. rewrite Query_range_spec.
  destruct (bool_decide _); [right | left; reflexivity].
  unfold flu_answer, posterior_fever_and_cough, posterior_fever_only,
    prior_flu.
  destruct (evidence_is evidence "Fever" "yes");
    [destruct (evidence_is evidence "Cough" "yes")|];
    eexists _, _; (split; [reflexivity|]);
    (split; [rewrite dom_insert_L, dom_singleton_L; reflexivity|]);
    repeat split; reflexivity.
Qed.

End Query_distribution.

(** ** The test runner: the results and the complete output *)

Section Runner_output.
Import TestRunner.

Variable world : nat → list string → CommandRun.

Lemma runSequentialTests_results (modules : list string) :
  runSequentialTests world modules = results_from world 0 modules.
Proof. unfold runSequentialTests. apply runSequentialTests_loop_spec. Qed.

(** X12. [runSequentialTests] returns one result per module, in the order
    of the modules: the result at position [k] carries the name of the
    module at position [k] and what its command yielded; no module gives
    no result. *)
Theorem runSequentialTests_one_result_per_module (modules : list string) :
  length (runSequentialTests world modules) = length modules
  ∧ map Module_ (runSequentialTests world modules) = modules
  ∧ (∀ k : nat,
       runSequentialTests world modules !! k
         = (fun module =>
              {| Module_ := module;
                 Passed := err_is_nil (world k (test_command module));
                 Output := combined_output (world k (test_command module));
                 Duration := elapsed (world k (test_command module)) |})
             <$> modules !! k)
  ∧ runSequentialTests world [] = [].
Proof.
  rewrite runSequentialTests_results.
  split; [apply results_from_length|].
  split; [apply results_from_modules|].
  split; [|reflexivity].
  intros k.
  destruct (results_from world 0 modules !! k) as [r|] eqn:Hr.
  - apply results_from_lookup in Hr as (module & -> & ->). reflexivity.
  - destruct (modules !! k) as [module|] eqn:Hk; [|reflexivity].
    exfalso. apply lookup_ge_None in Hr. apply lookup_lt_Some in Hk.
    rewrite results_from_length in Hr. lia.
Qed.

(** The details loop, started with a count that is not negative: the
    header is printed with the first failed module when the count is 0. *)
Lemma main_failed_details_spec (rs : list TestResult) (failedCount : Z)
  (out : list line) :
  0 ≤ failedCount →
  main_failed_details rs failedCount out =
    out ++ match failed_results rs with
           | [] => []
           | failed =>
               (if failedCount =? 0 then [FailedDetailsHeader] else [])
                 ++ flat_map failure_lines failed
           end.
Proof.
  revert failedCount out; induction rs as [|r rs IH];
    intros failedCount out Hcount; simpl.
  - now rewrite app_nil_r.
  - unfold failed_results in *. simpl. destruct (Passed r); simpl.
    + apply IH, Hcount.
    + rewrite IH by lia.
      replace (failedCount + 1 =? 0) with false
        by (symmetry; apply Z.eqb_neq; lia).
      destruct (failedCount =? 0);
        destruct (List.filter _ rs); simpl;
        rewrite <- ?app_assoc; simpl; rewrite ?app_nil_r; reflexivity.
Qed.

Lemma forallb_Passed (rs : list TestResult) :
  forallb Passed rs = (count_passed rs =? Z.of_nat (length rs)).
Proof.
  pose proof (count_passed_all rs) as Hall.
  destruct (forallb Passed rs) eqn:Hf; symmetry.
  - apply Z.eqb_eq, Hall. rewrite List.forallb_forall in Hf.
    apply Forall_forall. intros r Hr. apply Hf. now apply list_elem_of_In.
  - apply Z.eqb_neq. intros Heq. apply Hall in Heq.
    assert (forallb Passed rs = true); [|congruence].
    apply List.forallb_forall. intros r Hr.
    rewrite Forall_forall in Heq. apply Heq. now apply list_elem_of_In.
Qed.

(** X13. The complete output of [main] and its exit status, for any list
    of modules: the banner; three lines per module; the five summary
    lines, whose passed and failed counts add up to the number of modules;
    the failed-module section, which is absent when no module failed and
    otherwise is the header, printed once, followed by the name and the
    output of each failed module in order; then the success summary with
    the total duration and status 0, or the failure line and status 1. *)
Theorem main_complete_output (modules : list string) :
  let rs := runSequentialTests world modules in
  main_on world modules =
    (Banner :: flat_map report rs ++ summary_lines rs ++ failed_details rs
       ++ (closing_lines rs).1,
     (closing_lines rs).2)
  ∧ count_passed rs + (Z.of_nat (length rs) - count_passed rs)
    = Z.of_nat (length modules)
  ∧ 0 ≤ count_passed rs ≤ Z.of_nat (length modules)
  ∧ main world = main_on world main_modules.
Proof.
  intros rs. unfold rs. rewrite runSequentialTests_results.
  clear rs. set (rs := results_from world 0 modules).
  assert (Hlen : length rs = length modules) by apply results_from_length.
  split; [|split; [lia|split; [rewrite <- Hlen; apply count_passed_le|reflexivity]]].
  unfold main_on. rewrite main_run_loop_spec.
  cbn [printed results passedTests]. fold rs. rewrite Z.add_0_l.
  rewrite main_failed_details_spec by lia.
  unfold closing_lines, failed_details, summary_lines.
  rewrite forallb_Passed, Hlen. cbn [app].
  destruct (count_passed rs =? Z.of_nat (length modules));
    destruct (failed_results rs); cbn [fst snd app Z.eqb];
    rewrite <- ?app_assoc; cbn [app]; rewrite ?app_nil_r; reflexivity.
Qed.

(** X14. A slice returned by [runParallelTests] holds one result per
    module: it is as long as the list of modules and its module names are
    those of the list, each as often as in the list; with at most one
    module it is exactly what [runSequentialTests] returns. *)
Theorem runParallelTests_one_result_per_module (modules : list string)
  (rs : list TestResult) :
  runParallelTests world modules rs →
  length rs = length modules
  ∧ map Module_ rs ≡ₚ modules
  ∧ ((length modules ≤ 1)%nat → rs = runSequentialTests world modules).
Proof.
  intros (s & Hrun & Hret).
  assert (Hperm : rs ≡ₚ results_from world 0 modules).
  { eapply par_invariant_returns; [|exact Hret].
    apply par_invariant_reachable, Hrun. }
  split; [rewrite Hperm; apply results_from_length|].
  split; [rewrite Hperm, results_from_modules; reflexivity|].
  intros Hone. rewrite runSequentialTests_results.
  pose proof (results_from_length world 0 modules) as Hlen.
  destruct (results_from world 0 modules) as [|r [|r' rest]];
    [| |simpl in Hlen; lia].
  - now apply Permutation_nil_r in Hperm.
  - now apply Permutation_singleton_r in Hperm.
Qed.

End Runner_output.

Lemma runParallelTests_one_result_per_module_witness :
  length (rev (TestRunner.runSequentialTests quiet_world
                 ["probability"; "visualization"])) = 2%nat
  ∧ map TestRunner.Module_
      (rev (TestRunner.runSequentialTests quiet_world
              ["probability"; "visualization"]))
    ≡ₚ ["probability"; "visualization"].
Proof.
  destruct (runParallelTests_one_result_per_module quiet_world
              ["probability"; "visualization"]
              (rev (TestRunner.runSequentialTests quiet_world
                      ["probability"; "visualization"]))
              (runParallelTests_other_order quiet_world))
    as (Hlen & Hnames & _).
  split; [exact Hlen | exact Hnames].
Defined.

(** ** The substring helpers of comprehensive_verification.go *)

Section Substring_search.
Import ComprehensiveVerification.

Lemma string_slice_window (s substr : list ascii) (i : Z) :
  0 ≤ i → i + Z.of_nat (length substr) ≤ Z.of_nat (length s) →
  string_slice s i (i + Z.of_nat (length substr))
    = Some (take (length substr) (drop (Z.to_nat i) s)).
Proof.
  intros Hlow Hhigh. unfold string_slice.
  replace (0 <=? i) with true by (symmetry; apply Z.leb_le; lia).
  replace (i <=? i + Z.of_nat (length substr)) with true
    by (symmetry; apply Z.leb_le; lia).
  replace (i + Z.of_nat (length substr) <=? Z.of_nat (length s)) with true
    by (symmetry; apply Z.leb_le; lia).
  simpl. do 2 f_equal. lia.
Qed.

(** The loop from index [i], when the iterations left are exactly those of
    the indices [i, ..., len(s)-len(substr)]: it never slices out of range
    and stops at the first occurrence at or after [i]. *)
Lemma findSubstring_loop_spec (s substr : list ascii) (n : nat) (i : Z) :
  0 ≤ i →
  Z.of_nat n
    = Z.max 0 (Z.of_nat (length s) - Z.of_nat (length substr) + 1 - i) →
  ∃ r : Z,
    findSubstring_loop n i s substr = Some r
    ∧ ((r = -1 ∧ ∀ j : Z, i ≤ j → ¬ occurs_at s substr j)
       ∨ (i ≤ r ∧ occurs_at s substr r
          ∧ ∀ j : Z, i ≤ j → occurs_at s substr j → r ≤ j)).
Proof.
  revert i; induction n as [|n IH]; intros i Hi Hn; simpl.
  - exists (-1). split; [reflexivity|]. left. split; [reflexivity|].
    intros j Hj (_ & Hfit & _). lia.
  - rewrite string_slice_window by lia. simpl.
    destruct (decide (take (length substr) (drop (Z.to_nat i) s) = substr))
      as [Hhere|Hnot].
    + rewrite bool_decide_eq_true_2 by exact Hhere.
      exists i. split; [reflexivity|]. right.
      split; [lia|]. split; [|intros j Hj _; exact Hj].
      split; [exact Hi|]. split; [lia | exact Hhere].
    + rewrite bool_decide_eq_false_2 by exact Hnot.
      destruct (IH (i + 1)) as (r & -> & Hr); [lia | lia |].
      exists r. split; [reflexivity|].
      assert (Hati : ¬ occurs_at s substr i)
        by (intros (_ & _ & Hocc); contradiction).
      destruct Hr as [[-> Hnone]|(Hle & Hocc & Hfirst)].
      * left. split; [reflexivity|]. intros j Hj.
        destruct (decide (j = i)) as [->|Hne]; [exact Hati|].
        apply Hnone. lia.
      * right. split; [lia|]. split; [exact Hocc|].
        intros j Hj Hoccj.
        destruct (decide (j = i)) as [->|Hne]; [contradiction|].
        apply Hfirst; [lia | exact Hoccj].
Qed.

Lemma findSubstring_from_start (s substr : list ascii) :
  ∃ r : Z,
    findSubstring s substr = Some r
    ∧ ((r = -1 ∧ ∀ j : Z, 0 ≤ j → ¬ occurs_at s substr j)
       ∨ (0 ≤ r ∧ occurs_at s substr r
          ∧ ∀ j : Z, 0 ≤ j → occurs_at s substr j → r ≤ j)).
Proof.
  apply findSubstring_loop_spec; lia.
Qed.

(** X15. [findSubstring] never slices out of range; it returns -1 exactly
    when [substr] occurs nowhere in [s] (in particular when [substr] is
    longer than [s]), and otherwise the index of the first occurrence. *)
Theorem findSubstring_first_occurrence (s substr : list ascii) :
  ∃ r : Z,
    findSubstring s substr = Some r
    ∧ ((r = -1 ∧ ∀ j : Z, ¬ occurs_at s substr j)
       ∨ (occurs_at s substr r
          ∧ ∀ j : Z, occurs_at s substr j → r ≤ j)).
Proof.
  destruct (findSubstring_from_start s substr) as (r & Hr & Hspec).
  exists r. split; [exact Hr|].
  destruct Hspec as [[-> Hnone]|(_ & Hocc & Hfirst)].
  - left. split; [reflexivity|]. intros j Hocc.
    apply (Hnone j); [destruct Hocc; lia | exact Hocc].
  - right. split; [exact Hocc|]. intros j Hoccj.
    apply Hfirst; [destruct Hoccj; lia | exact Hoccj].
Qed.

Lemma findSubstring_first_occurrence_witness :
  ∃ r : Z,
    findSubstring (String.list_ascii_of_string "hello world")
      (String.list_ascii_of_string "o") = Some r
    ∧ ((r = -1
        ∧ ∀ j : Z,
            ¬ occurs_at (String.list_ascii_of_string "hello world")
                (String.list_ascii_of_string "o") j)
       ∨ (occurs_at (String.list_ascii_of_string "hello world")
            (String.list_ascii_of_string "o") r
          ∧ ∀ j : Z,
              occurs_at (String.list_ascii_of_string "hello world")
                (String.list_ascii_of_string "o") j → r ≤ j)).
Proof.
  exact (findSubstring_first_occurrence
           (String.list_ascii_of_string "hello world") (String.list_ascii_of_string "o")).
Defined.

Lemma occurs_at_split (s substr : list ascii) (j : Z) :
  occurs_at s substr j →
  s = take (Z.to_nat j) s ++ substr
        ++ drop (Z.to_nat j + length substr) s.
Proof.
  intros (Hlow & Hfit & Hocc).
  rewrite <- (take_drop (Z.to_nat j) s) at 1. f_equal.
  rewrite <- (take_drop (length substr) (drop (Z.to_nat j) s)) at 1.
  rewrite Hocc, drop_drop. reflexivity.
Qed.

Lemma split_occurs_at (before substr after : list ascii) :
  occurs_at (before ++ substr ++ after) substr (Z.of_nat (length before)).
Proof.
  split; [lia|]. split; [rewrite !length_app; lia|].
  rewrite Nat2Z.id, drop_app_length, take_app_length. reflexivity.
Qed.

(** X16. [contains] never panics and answers true exactly when [substr]
    occurs in [s], that is when [s] is some bytes, then [substr], then some
    bytes; the empty string is contained in every string. Its length test
    changes nothing: the answer is always whether [findSubstring] returns
    an index that is not negative. *)
Theorem contains_iff_occurrence (s substr : list ascii) :
  ∃ b : bool,
    contains s substr = Some b
    ∧ (b = true ↔ ∃ before after : list ascii, s = before ++ substr ++ after)
    ∧ contains s substr = (fun r => r >=? 0) <$> findSubstring s substr
    ∧ contains s [] = Some true.
Proof.
  assert (Hguard : contains s substr
                   = (fun r => r >=? 0) <$> findSubstring s substr).
  { unfold contains.
    destruct (Z.geb_spec (Z.of_nat (length s)) (Z.of_nat (length substr)))
      as [Hge|Hlt].
    - destruct (findSubstring s substr); reflexivity.
    - unfold findSubstring.
      replace (Z.to_nat (Z.of_nat (length s) - Z.of_nat (length substr) + 1))
        with 0%nat by lia.
      reflexivity. }
  destruct (findSubstring_from_start s substr) as (r & Hr & Hspec).
  exists (r >=? 0). rewrite Hguard, Hr.
  split; [reflexivity|]. split; [|split; [reflexivity|]].
  - destruct Hspec as [[-> Hnone]|(Hlow & Hocc & _)].
    + split; [discriminate|]. intros (before & after & ->).
      exfalso. eapply (Hnone (Z.of_nat (length before))); [lia|].
      apply split_occurs_at.
    + split.
      * intros _. eexists _, _. apply occurs_at_split, Hocc.
      * intros _. apply Z.geb_le. exact Hlow.
  - destruct (findSubstring_from_start s []) as (r0 & Hr0 & Hspec0).
    unfold contains. simpl length.
    replace (Z.of_nat (length s) >=? Z.of_nat 0) with true
      by (symmetry; apply Z.geb_le; lia).
    rewrite Hr0. simpl. f_equal.
    destruct Hspec0 as [[-> Hnone]|(Hlow & _)].
    + exfalso. apply (Hnone 0); [lia|]. split; [lia|].
      split; [simpl; lia | reflexivity].
    + apply Z.geb_le. exact Hlow.
Qed.

End Substring_search.

(** ** [AddItem] on any working memory *)

Section WorkingMemory_any.
Import ComprehensiveVerify.

(** X17. On any working memory, however it was built, [AddItem] panics
    exactly when [Contents] is empty and [Capacity] is 0 or less. When it
    returns, it returns [nil], leaves [Capacity] alone, and [GetContents]
    is the old contents, without their first item if there were at least
    [Capacity] of them, followed by the new item: at most one item is ever
    evicted, and the new item is always the last. *)
Theorem AddItem_any_memory (wm : WorkingMemory) (item : list Probability) :
  (AddItem wm item = None ↔ Contents wm = [] ∧ Capacity wm ≤ 0)
  ∧ ∀ (wm' : WorkingMemory) (e : error),
      AddItem wm item = Some (wm', e) →
      e = nil_error
      ∧ Capacity wm' = Capacity wm
      ∧ GetContents wm' =
          (if Z.of_nat (length (Contents wm)) >=? Capacity wm
           then drop 1 (Contents wm) else Contents wm) ++ [item]
      ∧ last (GetContents wm') = Some item
      ∧ (length (Contents wm) ≤ length (GetContents wm')
         ≤ S (length (Contents wm)))%nat.
Proof.
  unfold AddItem, GetContents.
  destruct (Z.geb_spec (Z.of_nat (length (Contents wm))) (Capacity wm))
    as [Hfull|Hroom].
  - unfold slice_from. replace (0 <=? 1) with true by reflexivity.
    destruct (Contents wm) as [|oldest rest] eqn:Hcontents; simpl.
    + split; [split; [intros _; split; [reflexivity | simpl in Hfull; lia]
                     | reflexivity]|].
      intros wm' e [=].
    + replace (1 <=? Z.of_nat (S (length rest))) with true
        by (symmetry; apply Z.leb_le; lia).
      cbn [mbind option_bind].
      split; [split; [discriminate | intros [Hempty _]; congruence]|].
      intros wm' e [= <- <-]. cbn [Capacity Contents].
      rewrite drop_0, last_snoc, length_app. simpl.
      repeat split; lia.
  - simpl. split; [split; [discriminate | intros [Hempty Hcap]]|].
    + rewrite Hempty in Hroom. simpl in Hroom. lia.
    + intros wm' e [= <- <-]. cbn [Capacity Contents].
      rewrite last_snoc, length_app. simpl. repeat split; lia.
Qed.

End WorkingMemory_any.

Lemma AddItem_any_memory_witness :
  ∃ wm' : ComprehensiveVerify.WorkingMemory,
    ComprehensiveVerify.AddItem
      {| ComprehensiveVerify.Capacity := 1;
         ComprehensiveVerify.Contents :=
           [[0.2%float]; [0.3%float]; [0.7%float]] |} [0.9%float]
    = Some (wm', nil_error)
    ∧ ComprehensiveVerify.GetContents wm'
      = [[0.3%float]; [0.7%float]; [0.9%float]].
Proof.
  eexists. split; [reflexivity|].
  apply (proj2 (AddItem_any_memory
                  {| ComprehensiveVerify.Capacity := 1;
                     ComprehensiveVerify.Contents :=
                       [[0.2%float]; [0.3%float]; [0.7%float]] |}
                  [0.9%float]) _ nil_error eq_refl).
Defined.
